(** * SplitBill: the bill-splitting allocation engine of [src/pages/index.vue]

    A shallow embedding of the script part of the page component: the receipt
    model with its setters, the sparse assignment map with its mutation
    primitives, participant removal with re-indexing, the live preview
    [participantTotals] and the final settlement [calculateSplit].

    Conventions of the embedding:
    - a finite JavaScript [number] is an exact rational ([Qc]); [NaN] only appears
      as the outcome of parsing an edited field and is a separate constructor
      of [jsNumber];
    - a JavaScript string is the list of its UTF-16 code units;
    - [Record<number, number>] is a finite map [gmap nat Qc], and the nested
      [Record<number, Record<number, number>>] a [gmap nat (gmap nat Qc)];
    - a [ref] that may be [null] is an [option]. *)

From Stdlib Require Import QArith Qcanon Qround Lqa.
From stdpp Require Import base option list numbers gmap fin_maps.

Local Open Scope Qc_scope.

(** ** JavaScript primitives used by the page *)

Module JS.

(** Strings: UTF-16 code units. *)
Definition jsString := list N.

(** ECMAScript [WhiteSpace] and [LineTerminator] code points, the ones
    [String.prototype.trim] strips. *)
Definition isWhiteSpace (c : N) : bool :=
  ((c =? 0x09) || (c =? 0x0A) || (c =? 0x0B) || (c =? 0x0C) || (c =? 0x0D)
   || (c =? 0x20) || (c =? 0xA0) || (c =? 0x1680)
   || ((0x2000 <=? c) && (c <=? 0x200A))
   || (c =? 0x2028) || (c =? 0x2029) || (c =? 0x202F) || (c =? 0x205F)
   || (c =? 0x3000) || (c =? 0xFEFF))%N.

Fixpoint trimStart (s : jsString) : jsString :=
  match s with
  | [] => []
  | c :: s' => if isWhiteSpace c then trimStart s' else s
  end.

Definition trimEnd (s : jsString) : jsString := rev (trimStart (rev s)).

Definition trim (s : jsString) : jsString := trimEnd (trimStart s).

(** Truthiness of a string: the empty string is the only falsy one. *)
Definition truthyString (s : jsString) : bool :=
  match s with [] => false | _ => true end.

(** Numbers. Arithmetic is exact; [NaN] is kept apart because it only
    arises from [Number(...)]/[parseFloat(...)] on an edited field. *)
Inductive jsNumber :=
| NaN
| Num (q : Qc).

(** [parseFloat(String(v))] on a value that already is a number: the
    decimal rendering of a finite number parses back to the same number,
    and ["NaN"] parses to [NaN]. *)
Definition parseFloat_String (v : jsNumber) : jsNumber := v.

Definition isNaN (v : jsNumber) : bool :=
  match v with NaN => true | Num _ => false end.

(** [a > b] and [a >= b]; every comparison with [NaN] is false. *)
Definition gtb (a : jsNumber) (b : Qc) : bool :=
  match a with NaN => false | Num q => bool_decide (b < q) end.
Definition geb (a : jsNumber) (b : Qc) : bool :=
  match a with NaN => false | Num q => bool_decide (b ≤ q) end.

(** [x || 0] on a number: zero is the only falsy rational. *)
Definition orZeroNum (q : Qc) : Qc := if bool_decide (q = 0) then 0 else q.

(** [o[k] || 0] on a [Record<number, number>]: a missing key and a stored
    zero both read as [0]. *)
Definition orZero (o : option Qc) : Qc :=
  match o with
  | Some q => orZeroNum q
  | None => 0
  end.

(** [!o[k]] on a [Record<number, number>]. *)
Definition falsy (o : option Qc) : bool :=
  match o with
  | Some q => bool_decide (q = 0)
  | None => true
  end.

(** [Object.keys] and [Object.values] of a record with numeric keys. The
    engine enumerates them in ascending key order; the map enumerates them in
    its own fixed order, and every loop over them below is shown not to depend
    on the order. *)
Definition Object_keys {A} (o : gmap nat A) : list nat := (map_to_list o).*1.
Definition Object_values {A} (o : gmap nat A) : list A := (map_to_list o).*2.

(** [Math.round]: nearest integer, ties towards plus infinity. *)
Definition Math_round (x : Qc) : Qc :=
  Qc_of_Z (Qfloor (x + (1 # 2))%Q).

(** [xs.reduce((sum, x) => sum + x, 0)]. *)
Definition sum (xs : list Qc) : Qc := foldl (λ sum x, sum + x) 0 xs.

(** [xs.splice(index, 1)] for a non-negative [index]. *)
Definition splice1 {A} (index : nat) (xs : list A) : list A :=
  take index xs ++ drop (S index) xs.

End JS.

Import JS.

(** ** Types of the page *)

Record ReceiptItem := mkItem {
  name : jsString;
  quantity : Qc;
  price : Qc
}.

Record Receipt := mkReceipt {
  items : list ReceiptItem;
  tax : Qc;
  total : Qc
}.

(** The label of a settlement line is the template string
    [`${item.name} (x${quantity})`]; its two interpolated parts are kept. *)
Record ResultItem := mkResultItem {
  ri_name : jsString * Qc;
  ri_cost : Qc;
  ri_sharedWith : nat
}.

Record ParticipantResult := mkParticipantResult {
  pr_name : jsString;
  pr_total : Qc;
  pr_itemsTotal : Qc;
  pr_taxPortion : Qc;
  pr_items : list ResultItem
}.

Record SplitResults := mkSplitResults {
  sr_participants : list ParticipantResult;
  sr_originalTotal : Qc;
  sr_splitTotal : Qc;
  sr_subtotal : Qc;
  sr_tax : Qc
}.

(** One entry of the live preview. *)
Record ParticipantTotal := mkParticipantTotal {
  pt_name : jsString;
  pt_total : Qc;
  pt_itemsTotal : Qc;
  pt_taxPortion : Qc
}.

Abbreviation Assignments := (gmap nat Qc).
Abbreviation ItemAssignments := (gmap nat (gmap nat Qc)).

(** The wizard step and the messages the page can show. *)
Inductive Step :=
| StepLanding | StepUpload | StepParticipants | StepReview | StepAssign | StepResults.

Inductive Message :=
| PleaseAddParticipant   (* 'Please add at least one participant' *)
| PleaseAddItem.         (* 'Please add at least one item' *)

(** The reactive state the engine reads and writes. *)
Record State := mkState {
  currentStep : Step;
  receipt : option Receipt;
  participants : list jsString;
  itemAssignments : ItemAssignments;
  splitResults : option SplitResults;
  error : option Message;
  selectedParticipantIndex : option nat
}.

Definition set_itemAssignments (ia : ItemAssignments) (st : State) : State :=
  mkState (currentStep st) (receipt st) (participants st) ia
          (splitResults st) (error st) (selectedParticipantIndex st).

Definition set_receipt (r : Receipt) (st : State) : State :=
  mkState (currentStep st) (Some r) (participants st) (itemAssignments st)
          (splitResults st) (error st) (selectedParticipantIndex st).

Definition set_participants (ps : list jsString) (st : State) : State :=
  mkState (currentStep st) (receipt st) ps (itemAssignments st)
          (splitResults st) (error st) (selectedParticipantIndex st).

Definition set_error (e : option Message) (st : State) : State :=
  mkState (currentStep st) (receipt st) (participants st) (itemAssignments st)
          (splitResults st) e (selectedParticipantIndex st).

Definition set_splitResults (sr : SplitResults) (st : State) : State :=
  mkState (currentStep st) (receipt st) (participants st) (itemAssignments st)
          (Some sr) (error st) (selectedParticipantIndex st).

(** [goToStep]: change the step and clear the error. *)
Definition goToStep (step : Step) (st : State) : State :=
  mkState step (receipt st) (participants st) (itemAssignments st)
          (splitResults st) None (selectedParticipantIndex st).

(** ** The allocation arithmetic shared by preview and settlement *)

(** [items.reduce((sum, item) => sum + item.price * item.quantity, 0)] *)
Definition subtotalOf (its : list ReceiptItem) : Qc :=
  foldl (λ sum item, sum + price item * quantity item) 0 its.

(** [Object.values(assignments).reduce((sum, qty) => sum + qty, 0)] *)
Definition totalAssignedQty (assignments : Assignments) : Qc :=
  JS.sum (Object_values assignments).

(** [totalAssignedQty > 0 ? (quantity / totalAssignedQty) * totalItemCost : 0]
    with [totalItemCost = item.price * item.quantity]. *)
Definition itemCost (assignments : Assignments) (qty : Qc) (item : ReceiptItem) : Qc :=
  let totalItemCost := price item * quantity item in
  if bool_decide (0 < totalAssignedQty assignments)
  then (qty / totalAssignedQty assignments) * totalItemCost
  else 0.

(** [subtotal > 0 ? (itemsTotal / subtotal) * (receipt.tax || 0) : 0] *)
Definition taxPortionOf (subtotal itemsTotal : Qc) (r : Receipt) : Qc :=
  if bool_decide (0 < subtotal)
  then (itemsTotal / subtotal) * orZeroNum (tax r)
  else 0.

(** What the body of the [forEach] over the items adds to the running
    [itemsTotal] of participant [pIndex] for one item: the guarded block
    [if (quantity > 0) { ... itemsTotal += itemCost }], written the same in
    [participantTotals] and in [calculateSplit]. *)
Definition itemShareCost (ia : ItemAssignments) (pIndex itemIndex : nat)
    (item : ReceiptItem) : Qc :=
  let assignments := default ∅ (ia !! itemIndex) in
  let qty := orZero (assignments !! pIndex) in
  if bool_decide (0 < qty) then itemCost assignments qty item else 0.

(** ** Live preview: [participantTotals] *)

(** The body of the [forEach] over the items, for one participant. *)
Definition previewStep (ia : ItemAssignments) (pIndex : nat)
    (itemsTotal : Qc) (entry : nat * ReceiptItem) : Qc :=
  let '(itemIndex, item) := entry in
  let assignments := default ∅ (ia !! itemIndex) in
  let qty := orZero (assignments !! pIndex) in
  if bool_decide (0 < qty)
  then itemsTotal + itemCost assignments qty item
  else itemsTotal.

(** The [itemsTotal] the loop leaves for slot [pIndex]. *)
Definition previewItemsTotal (r : Receipt) (ia : ItemAssignments) (pIndex : nat) : Qc :=
  foldl (previewStep ia pIndex) 0 (imap pair (items r)).

Definition previewEntry (r : Receipt) (ia : ItemAssignments)
    (pIndex : nat) (name : jsString) : ParticipantTotal :=
  let subtotal := subtotalOf (items r) in
  let itemsTotal := previewItemsTotal r ia pIndex in
  let taxPortion := taxPortionOf subtotal itemsTotal r in
  let total := itemsTotal + taxPortion in
  {| pt_name := trim name; pt_total := total;
     pt_itemsTotal := itemsTotal; pt_taxPortion := taxPortion |}.

Definition participantTotals (st : State) : list ParticipantTotal :=
  match receipt st with
  | None => []
  | Some r => imap (previewEntry r (itemAssignments st)) (participants st)
  end.

(** ** Final settlement: [calculateSplit] *)

(** The body of the [forEach] over the items: the running [itemsTotal] and
    the [items] array being pushed to. *)
Definition splitStep (ia : ItemAssignments) (pIndex : nat)
    (acc : Qc * list ResultItem) (entry : nat * ReceiptItem) : Qc * list ResultItem :=
  let '(itemsTotal, its) := acc in
  let '(itemIndex, item) := entry in
  let assignments := default ∅ (ia !! itemIndex) in
  let qty := orZero (assignments !! pIndex) in
  if bool_decide (0 < qty) then
    let sharedWith := length (Object_keys assignments) in
    let cost := itemCost assignments qty item in
    (itemsTotal + cost,
     its ++ [{| ri_name := (name item, qty); ri_cost := cost;
                ri_sharedWith := sharedWith |}])
  else acc.

(** [Math.round(x * 100) / 100] *)
Definition round2 (x : Qc) : Qc := Math_round (x * Qc_of_Z 100) / Qc_of_Z 100.

Definition splitEntry (r : Receipt) (ia : ItemAssignments)
    (pIndex : nat) (name : jsString) : ParticipantResult :=
  let subtotal := subtotalOf (items r) in
  let '(itemsTotal, its) := foldl (splitStep ia pIndex) (0, []) (imap pair (items r)) in
  let taxPortion := taxPortionOf subtotal itemsTotal r in
  let total := itemsTotal + taxPortion in
  {| pr_name := trim name;
     pr_total := round2 total;
     pr_itemsTotal := round2 itemsTotal;
     pr_taxPortion := round2 taxPortion;
     pr_items := its |}.

(** [participants.value.filter((p) => p.trim())] *)
Definition validParticipantsOf (ps : list jsString) : list jsString :=
  filter (λ p, truthyString (trim p) = true) ps.

Definition calculateSplit (st : State) : State :=
  match receipt st with
  | None => st
  | Some r =>
    let validParticipants := validParticipantsOf (participants st) in
    if bool_decide (length validParticipants = 0%nat) then
      set_error (Some PleaseAddParticipant) st
    else
      let subtotal := subtotalOf (items r) in
      let results := imap (splitEntry r (itemAssignments st)) validParticipants in
      goToStep StepResults
        (set_splitResults
           {| sr_participants := results;
              sr_originalTotal := total r;
              sr_splitTotal := foldl (λ sum p, sum + pr_total p) 0 results;
              sr_subtotal := subtotal;
              sr_tax := orZeroNum (tax r) |} st)
  end.

(** ** Mutations of the assignment map *)

Definition selectParticipant (participantIndex : nat) (st : State) : State :=
  mkState (currentStep st) (receipt st) (participants st) (itemAssignments st)
          (splitResults st) (error st) (Some participantIndex).

(** [if (!itemAssignments.value[itemIndex]) itemAssignments.value[itemIndex] = {}] *)
Definition ensureItem (itemIndex : nat) (ia : ItemAssignments) : ItemAssignments :=
  match ia !! itemIndex with
  | Some _ => ia
  | None => <[itemIndex := ∅]> ia
  end.

Definition assignItemToSelected (itemIndex : nat) (st : State) : State :=
  match selectedParticipantIndex st with
  | None => st
  | Some participantIndex =>
    let ia := ensureItem itemIndex (itemAssignments st) in
    let assignments := default ∅ (ia !! itemIndex) in
    if falsy (assignments !! participantIndex)
    then set_itemAssignments
           (<[itemIndex := <[participantIndex := 1]> assignments]> ia) st
    else set_itemAssignments ia st
  end.

Definition increaseItemQuantity (itemIndex participantIndex : nat) (st : State) : State :=
  let ia := ensureItem itemIndex (itemAssignments st) in
  let assignments := default ∅ (ia !! itemIndex) in
  let currentQty := orZero (assignments !! participantIndex) in
  set_itemAssignments
    (<[itemIndex := <[participantIndex := currentQty + 1]> assignments]> ia) st.

Definition decreaseItemQuantity (itemIndex participantIndex : nat) (st : State) : State :=
  match itemAssignments st !! itemIndex with
  | None => st
  | Some assignments =>
    let currentQty := orZero (assignments !! participantIndex) in
    if bool_decide (1 < currentQty) then
      set_itemAssignments
        (<[itemIndex := <[participantIndex := currentQty - 1]> assignments]>
           (itemAssignments st)) st
    else if bool_decide (currentQty = 1) then
      let newAssignments := delete participantIndex assignments in
      set_itemAssignments (<[itemIndex := newAssignments]> (itemAssignments st)) st
    else st
  end.

Definition removeAssignment (itemIndex participantIndex : nat) (st : State) : State :=
  match itemAssignments st !! itemIndex with
  | None => st
  | Some assignments =>
    let newAssignments := delete participantIndex assignments in
    set_itemAssignments (<[itemIndex := newAssignments]> (itemAssignments st)) st
  end.

(** The user's actions on the assign step, and their effect. *)
Inductive Op :=
| OpSelect (participantIndex : nat)
| OpAssign (itemIndex : nat)
| OpIncrease (itemIndex participantIndex : nat)
| OpDecrease (itemIndex participantIndex : nat)
| OpUnassign (itemIndex participantIndex : nat).

Definition step (st : State) (op : Op) : State :=
  match op with
  | OpSelect p => selectParticipant p st
  | OpAssign i => assignItemToSelected i st
  | OpIncrease i p => increaseItemQuantity i p st
  | OpDecrease i p => decreaseItemQuantity i p st
  | OpUnassign i p => removeAssignment i p st
  end.

Definition run (ops : list Op) (st : State) : State := foldl step st ops.

(** Reading the share of a pair: [itemAssignments[itemIndex]?.[participantIndex]]. *)
Definition shareOf (ia : ItemAssignments) (itemIndex participantIndex : nat) : option Qc :=
  ia !! itemIndex ≫= λ assignments, assignments !! participantIndex.

(** ** Participants *)

Definition addParticipant (st : State) : State :=
  set_participants (participants st ++ [[]]) st.

(** The inner [forEach] of [removeParticipant]: one key of the old record
    copied, or not, into [newAssignments]. *)
Definition reindexStep (index : nat) (assignments : Assignments)
    (newAssignments : Assignments) (pIndex : nat) : Assignments :=
  if bool_decide (pIndex ≠ index) then
    let newPIndex := if bool_decide (index < pIndex)%nat then (pIndex - 1)%nat else pIndex in
    match assignments !! pIndex with
    | Some qty => <[newPIndex := qty]> newAssignments
    | None => newAssignments
    end
  else newAssignments.

Definition reindexAssignments (index : nat) (assignments : Assignments) : Assignments :=
  foldl (reindexStep index assignments) ∅ (Object_keys assignments).

(** The outer [forEach]: every item's record is replaced in place. *)
Definition reindexItemStep (index : nat) (ia : ItemAssignments) (itemIndex : nat)
    : ItemAssignments :=
  match ia !! itemIndex with
  | Some assignments => <[itemIndex := reindexAssignments index assignments]> ia
  | None => ia
  end.

Definition removeParticipant (index : nat) (st : State) : State :=
  if bool_decide (1 < length (participants st))%nat then
    let ps := splice1 index (participants st) in
    let ia := foldl (reindexItemStep index) (itemAssignments st)
                    (Object_keys (itemAssignments st)) in
    set_itemAssignments ia (set_participants ps st)
  else st.

(** ** Receipt model *)

Definition recalculateTotal (st : State) : State :=
  match receipt st with
  | Some r =>
    let subtotal := subtotalOf (items r) in
    set_receipt (mkReceipt (items r) (tax r) (subtotal + orZeroNum (tax r))) st
  | None => st
  end.

Definition updateItemName (index : nat) (newName : jsString) (st : State) : State :=
  match receipt st with
  | Some r =>
    match items r !! index with
    | Some item =>
      set_receipt
        (mkReceipt (<[index := mkItem newName (quantity item) (price item)]> (items r))
                   (tax r) (total r)) st
    | None => st
    end
  | None => st
  end.

Definition updateItemQuantity (index : nat) (value : jsNumber) (st : State) : State :=
  match receipt st with
  | Some r =>
    match items r !! index with
    | Some item =>
      let parsedQuantity := parseFloat_String value in
      if negb (isNaN parsedQuantity) && gtb parsedQuantity 0 then
        match parsedQuantity with
        | Num q =>
          recalculateTotal
            (set_receipt
               (mkReceipt (<[index := mkItem (name item) q (price item)]> (items r))
                          (tax r) (total r)) st)
        | NaN => st
        end
      else st
    | None => st
    end
  | None => st
  end.

Definition updateItemPrice (index : nat) (value : jsNumber) (st : State) : State :=
  match receipt st with
  | Some r =>
    match items r !! index with
    | Some item =>
      let parsedPrice := parseFloat_String value in
      if negb (isNaN parsedPrice) && geb parsedPrice 0 then
        match parsedPrice with
        | Num q =>
          recalculateTotal
            (set_receipt
               (mkReceipt (<[index := mkItem (name item) (quantity item) q]> (items r))
                          (tax r) (total r)) st)
        | NaN => st
        end
      else st
    | None => st
    end
  | None => st
  end.

Definition updateTax (value : jsNumber) (st : State) : State :=
  match receipt st with
  | Some r =>
    let parsedTax := parseFloat_String value in
    if negb (isNaN parsedTax) && geb parsedTax 0 then
      match parsedTax with
      | Num q => recalculateTotal (set_receipt (mkReceipt (items r) q (total r)) st)
      | NaN => st
      end
    else st
  | None => st
  end.

(** ** Concrete states used in the scenarios below *)

(** ASCII text as code units. *)
Definition ofAscii (l : list nat) : jsString := N.of_nat <$> l.
Definition Alice : jsString := ofAscii [65; 108; 105; 99; 101]%nat.
Definition Bob : jsString := ofAscii [66; 111; 98]%nat.
Definition Carol : jsString := ofAscii [67; 97; 114; 111; 108]%nat.

Definition qz (z : Z) : Qc := Qc_of_Z z.

Definition initialState (r : Receipt) (ps : list jsString) (ia : ItemAssignments) : State :=
  mkState StepAssign (Some r) ps ia None None None.

(** Scenario B: one item of 100, tax 10, a sole claimant. *)
Definition receiptB : Receipt := mkReceipt [mkItem [] 1 (qz 100)] (qz 10) (qz 110).
Definition scenarioB : State :=
  initialState receiptB [Alice] {[ 0%nat := {[ 0%nat := 1 ]} ]}.

(** Scenario C: one item [{quantity: 1, price: 15}], tax 5, total 20, and
    nobody claims the item. *)
Definition receiptC : Receipt := mkReceipt [mkItem [] 1 (qz 15)] (qz 5) (qz 20).
Definition scenarioC (ps : list jsString) (ia : ItemAssignments) : State :=
  initialState receiptC ps ia.

(** Scenario D: one item of 10.00, no tax, three equal shares. *)
Definition scenarioD : State :=
  initialState (mkReceipt [mkItem [] 1 (qz 10)] 0 (qz 10)) [Alice; Bob; Carol]
    {[ 0%nat := {[ 0%nat := 1; 1%nat := 1; 2%nat := 1 ]} ]}.

(** Three nominal units at 9 each, of which Alice claims one and Bob two. *)
Definition threeUnits : ReceiptItem := mkItem [] (qz 3) (qz 9).
Definition unevenShares : ItemAssignments :=
  {[ 0%nat := {[ 0%nat := 1; 1%nat := qz 2 ]} ]}.
Definition scenarioUneven : State :=
  initialState (mkReceipt [threeUnits] (qz 3) (qz 30)) [Alice; Bob; Carol] unevenShares.

(** A receipt whose only item is free: the subtotal is zero. *)
Definition receiptFree : Receipt := mkReceipt [mkItem [] 1 0] (qz 2) (qz 2).
Definition scenarioFree : State :=
  initialState receiptFree [Alice] {[ 0%nat := {[ 0%nat := 1 ]} ]}.

(** Two slots, the first left blank; one item of 10, no tax. *)
Definition receiptTen : Receipt := mkReceipt [mkItem [] 1 (qz 10)] 0 (qz 10).
Definition blankThenBob (ia : ItemAssignments) : State :=
  initialState receiptTen [[]; Bob] ia.

(** A single participant. *)
Definition scenarioAlone : State := initialState receiptTen [Alice] ∅.

(** ** The filtering rule, in the spec's words *)

(** Follows the spec's words: the preview over the participants whose
    trimmed name is non-empty, each looked up under its original index. *)
Definition spec_previewEntries (r : Receipt) (ia : ItemAssignments)
    (ps : list jsString) : list ParticipantTotal :=
  omap (λ e, if truthyString (trim e.2) then Some (previewEntry r ia e.1 e.2) else None)
       (imap pair ps).

(** Follows the spec's words: the settlement over the participants whose
    trimmed name is non-empty, each looked up under its original index. *)
Definition spec_settlementEntries (r : Receipt) (ia : ItemAssignments)
    (ps : list jsString) : list ParticipantResult :=
  omap (λ e, if truthyString (trim e.2) then Some (splitEntry r ia e.1 e.2) else None)
       (imap pair ps).

(** ** Removing a participant, in the spec's words *)

(** Follows the spec's words: the entry of participant [k] is dropped, an
    entry with a participant index greater than [k] is shifted down by one,
    an entry with a lower index is unchanged. *)
Definition spec_reindexEntry (k : nat) (e : nat * Qc) : option (nat * Qc) :=
  if decide (e.1 = k) then None
  else if decide (k < e.1)%nat then Some ((e.1 - 1)%nat, e.2)
  else Some e.

Definition spec_withoutShares (k : nat) (m : Assignments) : Assignments :=
  list_to_map (omap (spec_reindexEntry k) (map_to_list m)).

(** Follows the spec's words: the state in which participant [k] and their
    assignment entries never existed. *)
Definition spec_neverHadParticipant (k : nat) (st : State) : State :=
  set_itemAssignments (spec_withoutShares k <$> itemAssignments st)
    (set_participants (delete k (participants st)) st).

(** The index a remaining participant has after slot [k] is removed. *)
Definition indexAfterRemoval (k j : nat) : nat :=
  if decide (k < j)%nat then (j - 1)%nat else j.

(** The old index of the participant found at [j] after slot [k] is gone. *)
Definition indexBefore (k j : nat) : nat := if decide (j < k)%nat then j else S j.

(** ** The receipt total, in the spec's words *)

(** Follows the spec's words: [sum(quantity*price for all items) + tax]. *)
Definition spec_total (its : list ReceiptItem) (tx : Qc) : Qc :=
  JS.sum ((λ item, quantity item * price item) <$> its) + tx.

(** ** Predicates on states used in the statements *)

(** Every stored share is strictly positive. *)
Definition positiveShares (ia : ItemAssignments) : Prop :=
  map_Forall (λ _ assignments, map_Forall (λ (_ : nat) (q : Qc), 0 < q) assignments) ia.

(** The slots [0 .. j] all carry a name that is non-empty after trimming. *)
Definition noBlankUpTo (j : nat) (ps : list jsString) : Prop :=
  Forall (λ p, truthyString (trim p) = true) (take (S j) ps).


(** The shares stored for item [itemIndex] are the data model's: none is
    negative. *)
Definition nonNegativeShares (ia : ItemAssignments) (itemIndex : nat) : Prop :=
  map_Forall (λ _ q, 0 ≤ q) (default ∅ (ia !! itemIndex)).

(** Item [itemIndex] is claimed, and only by slots of a participant list of
    length [n]: its shares are non-negative, stored under indices below [n],
    and their sum is strictly positive. *)
Definition claimedWithin (n : nat) (ia : ItemAssignments) (itemIndex : nat) : Prop :=
  map_Forall (λ p q, (p < n)%nat ∧ 0 ≤ q) (default ∅ (ia !! itemIndex))
  ∧ 0 < totalAssignedQty (default ∅ (ia !! itemIndex)).

(** Every item of the receipt that costs something is claimed within the
    participant list. *)
Definition fullyClaimed (its : list ReceiptItem) (n : nat) (ia : ItemAssignments) : Prop :=
  Forall (λ e, price e.2 * quantity e.2 = 0 ∨ claimedWithin n ia e.1) (imap pair its).


(** ** The rest of the receipt model *)

(** The body of the [forEach] of [removeItem]: records below [index] keep
    their key, records above move down by one, the record of [index] is
    skipped. *)
Definition removeItemStep (index : nat) (ia : ItemAssignments)
    (newAssignments : ItemAssignments) (itemIndex : nat) : ItemAssignments :=
  if bool_decide (itemIndex < index)%nat then
    match ia !! itemIndex with
    | Some assignments => <[itemIndex := assignments]> newAssignments
    | None => newAssignments
    end
  else if bool_decide (index < itemIndex)%nat then
    match ia !! itemIndex with
    | Some assignments => <[(itemIndex - 1)%nat := assignments]> newAssignments
    | None => newAssignments
    end
  else newAssignments.

Definition removeItem (index : nat) (st : State) : State :=
  match receipt st with
  | Some r =>
    if bool_decide (1 < length (items r))%nat then
      let its := splice1 index (items r) in
      let newAssignments :=
        foldl (removeItemStep index (itemAssignments st)) ∅
              (Object_keys (itemAssignments st)) in
      recalculateTotal
        (set_itemAssignments newAssignments
           (set_receipt (mkReceipt its (tax r) (total r)) st))
    else st
  | None => st
  end.

Definition addNewItem (st : State) : State :=
  match receipt st with
  | Some r =>
    let its := items r ++ [mkItem [] 1 0] in
    set_itemAssignments (<[(length its - 1)%nat := ∅]> (itemAssignments st))
      (set_receipt (mkReceipt its (tax r) (total r)) st)
  | None => st
  end.

(** [receiptSubtotal], the computed subtotal shown on the review step. *)
Definition receiptSubtotal (st : State) : Qc :=
  match receipt st with
  | None => 0
  | Some r => subtotalOf (items r)
  end.

(** [proceedToAssignFromReview] *)
Definition proceedToAssignFromReview (st : State) : State :=
  match receipt st with
  | Some r =>
    if bool_decide (length (items r) = 0%nat) then set_error (Some PleaseAddItem) st
    else
      goToStep StepAssign
        (mkState (currentStep st) (receipt st) (participants st) (itemAssignments st)
                 (splitResults st) None None)
  | None => set_error (Some PleaseAddItem) st
  end.

(** The part of [parseReceiptInBackground] that runs when the response has
    arrived, on the refs of [State]: the receipt is stored and every item gets
    an empty record. (The progress flags it also sets are not part of
    [State]. A response without [tax] is a receipt with tax 0: every read of
    the tax is [receipt.tax || 0].) *)
Definition receiptParsed (r : Receipt) (st : State) : State :=
  set_itemAssignments
    (foldl (λ ia index, <[index := ∅]> ia) ∅ (seq 0 (length (items r))))
    (set_receipt r st).

(** [resetApp], on the refs of [State]. *)
Definition resetApp (st : State) : State :=
  mkState StepLanding None [[]] ∅ None None None.

(** [v-model="participants[index]"]: typing a name into slot [index], an
    index of the list (the input is rendered once per slot). *)
Definition setParticipantName (index : nat) (newName : jsString) (st : State) : State :=
  set_participants (<[index := newName]> (participants st)) st.

(** The accuracy line of the results step:
    [Math.abs((originalTotal || 0) - (splitTotal || 0)) < 0.01]. *)
Definition Qc_abs (x : Qc) : Qc := if bool_decide (x < 0) then - x else x.

Definition accuracyPerfect (sr : SplitResults) : bool :=
  bool_decide (Qc_abs (orZeroNum (sr_originalTotal sr) - orZeroNum (sr_splitTotal sr))
               < Q2Qc (1 # 100)).

(** ** Every action of the page on [State] *)

Inductive Action :=
| ActAssignment (op : Op)
| ActAddParticipant
| ActRemoveParticipant (index : nat)
| ActSetParticipantName (index : nat) (newName : jsString)
| ActUpdateItemName (index : nat) (newName : jsString)
| ActUpdateItemQuantity (index : nat) (value : jsNumber)
| ActUpdateItemPrice (index : nat) (value : jsNumber)
| ActUpdateTax (value : jsNumber)
| ActRemoveItem (index : nat)
| ActAddNewItem
| ActProceedToAssignFromReview
| ActCalculateSplit
| ActGoToStep (s : Step)
| ActReceiptParsed (r : Receipt)
| ActResetApp.

Definition perform (st : State) (a : Action) : State :=
  match a with
  | ActAssignment op => step st op
  | ActAddParticipant => addParticipant st
  | ActRemoveParticipant index => removeParticipant index st
  | ActSetParticipantName index newName => setParticipantName index newName st
  | ActUpdateItemName index newName => updateItemName index newName st
  | ActUpdateItemQuantity index value => updateItemQuantity index value st
  | ActUpdateItemPrice index value => updateItemPrice index value st
  | ActUpdateTax value => updateTax value st
  | ActRemoveItem index => removeItem index st
  | ActAddNewItem => addNewItem st
  | ActProceedToAssignFromReview => proceedToAssignFromReview st
  | ActCalculateSplit => calculateSplit st
  | ActGoToStep s => goToStep s st
  | ActReceiptParsed r => receiptParsed r st
  | ActResetApp => resetApp st
  end.

Definition performAll (acts : list Action) (st : State) : State := foldl perform st acts.

(** The state the page starts in: the initial values of the refs. *)
Definition pageStart : State := mkState StepLanding None [[]] ∅ None None None.

(** An action that replaces the receipt as a whole. *)
Definition replacesReceipt (a : Action) : bool :=
  match a with ActReceiptParsed _ => true | _ => false end.

(** The stored [total] agrees with the items and the tax. *)
Definition totalConsistent (st : State) : Prop :=
  match receipt st with
  | Some r => total r = spec_total (items r) (tax r)
  | None => True
  end.

(** Two items, of which only the second is claimed, by Alice. *)
Definition receiptTwoItems : Receipt :=
  mkReceipt [threeUnits; mkItem [] 1 (qz 10)] 0 (qz 37).
Definition scenarioTwoItems : State :=
  initialState receiptTwoItems [Alice; Bob] {[ 1%nat := {[ 0%nat := 1 ]} ]}.

(** No stored share of any item is negative. *)
Definition allSharesNonNegative (ia : ItemAssignments) : Prop :=
  map_Forall (λ (_ : nat) (m : gmap nat Qc), map_Forall (λ (_ : nat) (q : Qc), 0 ≤ q) m) ia.

(** No line of the receipt has a negative total, and the tax is not
    negative. *)
Definition nonNegativeReceipt (r : Receipt) : Prop :=
  Forall (λ item, 0 ≤ price item * quantity item) (items r) ∧ 0 ≤ tax r.

(** A count as a number, and half a cent. *)
Definition ofNat (n : nat) : Qc := Qc_of_Z (Z.of_nat n).
Definition halfCent : Qc := Q2Qc (1 # 200).

(** The edits that change money: quantity, price, tax, and removing an
    item. *)
Definition editsMoney (a : Action) : bool :=
  match a with
  | ActUpdateItemQuantity _ _ | ActUpdateItemPrice _ _ | ActUpdateTax _
  | ActRemoveItem _ => true
  | _ => false
  end.

(** Every share is stored under a participant index below [n]. *)
Definition sharesWithin (n : nat) (ia : ItemAssignments) : Prop :=
  map_Forall (λ (_ : nat) (m : gmap nat Qc), map_Forall (λ (p : nat) (_ : Qc), (p < n)%nat) m) ia.

(** Every record is stored under an item index below [n]. *)
Definition recordsWithin (n : nat) (ia : ItemAssignments) : Prop :=
  map_Forall (λ (i : nat) (_ : gmap nat Qc), (i < n)%nat) ia.

(** The running total shown beside a participant on the assign step. The
    template iterates [participants.filter((p) => p.trim())] and shows
    [participantTotals[index]?.total || 0] for the index in that filtered
    list. *)
Definition shownRunningTotal (st : State) (index : nat) : Qc :=
  orZeroNum (from_option pt_total 0 (participantTotals st !! index)).

(** * Properties *)

(** ** Sums of rationals *)

Section Sums.

Lemma foldl_plus_acc {A} (f : A → Qc) (l : list A) (a : Qc) :
  foldl (λ s x, s + f x) a l = a + foldl (λ s x, s + f x) 0 l.
Proof.
  revert a. induction l as [|x l IH]; intros a; simpl.
  - ring.
  - rewrite (IH (a + f x)), (IH (0 + f x)). ring.
Qed.

Lemma sum_nil : JS.sum [] = 0.
Proof. reflexivity. Qed.

Lemma sum_cons x l : JS.sum (x :: l) = x + JS.sum l.
Proof.
  unfold JS.sum. simpl.
  rewrite (foldl_plus_acc (λ x, x) l (0 + x)). ring.
Qed.

Lemma sum_app l k : JS.sum (l ++ k) = JS.sum l + JS.sum k.
Proof.
  induction l as [|x l IH]; simpl.
  - rewrite sum_nil. ring.
  - rewrite !sum_cons, IH. ring.
Qed.

Lemma sum_perm l k : l ≡ₚ k → JS.sum l = JS.sum k.
Proof.
  induction 1 as [|x l k _ IH|x y l|l k m _ IH1 _ IH2].
  - done.
  - by rewrite !sum_cons, IH.
  - rewrite !sum_cons. ring.
  - congruence.
Qed.

Lemma sum_fmap_plus {A} (f g : A → Qc) (l : list A) :
  JS.sum ((λ a, f a + g a) <$> l) = JS.sum (f <$> l) + JS.sum (g <$> l).
Proof.
  induction l as [|a l IH]; csimpl.
  - rewrite !sum_nil. ring.
  - rewrite !sum_cons, IH. ring.
Qed.

Lemma sum_fmap_scale {A} (f : A → Qc) (c : Qc) (l : list A) :
  JS.sum ((λ a, f a * c) <$> l) = JS.sum (f <$> l) * c.
Proof.
  induction l as [|a l IH]; csimpl.
  - rewrite !sum_nil. ring.
  - rewrite !sum_cons, IH. ring.
Qed.

Lemma sum_fmap_zero {A} (f : A → Qc) (l : list A) :
  (∀ a, a ∈ l → f a = 0) → JS.sum (f <$> l) = 0.
Proof.
  induction l as [|a l IH]; intros Hz; csimpl.
  - done.
  - rewrite sum_cons, IH, Hz; [ring | left | intros; apply Hz; by right].
Qed.

Lemma sum_fmap_ext {A} (f g : A → Qc) (l : list A) :
  (∀ a, a ∈ l → f a = g a) → JS.sum (f <$> l) = JS.sum (g <$> l).
Proof.
  induction l as [|a l IH]; intros He; csimpl.
  - done.
  - rewrite !sum_cons, IH, He; [done | left | intros; apply He; by right].
Qed.

(** Exchanging two finite sums. *)
Lemma sum_exchange {A B} (f : A → B → Qc) (la : list A) (lb : list B) :
  JS.sum ((λ a, JS.sum (f a <$> lb)) <$> la)
  = JS.sum ((λ b, JS.sum ((λ a, f a b) <$> la)) <$> lb).
Proof.
  induction la as [|a la IH]; csimpl.
  - rewrite sum_nil. symmetry. by apply sum_fmap_zero.
  - rewrite sum_cons, IH.
    rewrite <- (sum_fmap_plus (f a) (λ b, JS.sum ((λ a, f a b) <$> la))).
    apply sum_fmap_ext. intros b _. csimpl.
    by rewrite sum_cons.
Qed.

(** A function that vanishes outside [l] sums to the same over any
    duplicate-free list that covers [l]. *)
Lemma sum_fmap_support (f : nat → Qc) (l k : list nat) :
  NoDup l → NoDup k → (∀ x, x ∈ l → x ∈ k) → (∀ x, x ∉ l → f x = 0) →
  JS.sum (f <$> k) = JS.sum (f <$> l).
Proof.
  intros Hl Hk Hsub Hz.
  destruct (submseteq_Permutation l k (NoDup_submseteq _ _ Hl Hsub)) as [k' Hp].
  rewrite (sum_perm (f <$> k) (f <$> (l ++ k'))) by (by rewrite Hp).
  rewrite fmap_app, sum_app.
  rewrite (sum_fmap_zero f k'); [ring|].
  intros x Hx. apply Hz. intros Hxl.
  rewrite Hp in Hk. apply NoDup_app in Hk as (_ & Hdisj & _).
  by apply (Hdisj x).
Qed.

End Sums.

(** ** The assignment record of one item *)

Section Records.

Lemma orZeroNum_id q : orZeroNum q = q.
Proof. unfold orZeroNum. by case_bool_decide. Qed.

Lemma orZero_Some q : orZero (Some q) = q.
Proof. apply orZeroNum_id. Qed.

Lemma totalAssignedQty_empty : totalAssignedQty ∅ = 0.
Proof. unfold totalAssignedQty, Object_values. by rewrite map_to_list_empty. Qed.

Lemma totalAssignedQty_insert (m : gmap nat Qc) p q :
  m !! p = None → totalAssignedQty (<[p := q]> m) = q + totalAssignedQty m.
Proof.
  intros Hp. unfold totalAssignedQty, Object_values.
  rewrite (sum_perm _ ((p, q) :: map_to_list m).*2).
  - csimpl. by rewrite sum_cons.
  - by rewrite map_to_list_insert.
Qed.

Lemma totalAssignedQty_delete (m : gmap nat Qc) p q :
  m !! p = Some q → totalAssignedQty m = q + totalAssignedQty (delete p m).
Proof.
  intros Hp. rewrite <- (insert_delete_id m p q) at 1 by done.
  apply totalAssignedQty_insert, lookup_delete_eq.
Qed.

Lemma Object_keys_elem {A} (m : gmap nat A) p :
  p ∈ Object_keys m ↔ is_Some (m !! p).
Proof.
  unfold Object_keys. rewrite list_elem_of_fmap. split.
  - intros ([p' x] & -> & Hin). apply elem_of_map_to_list in Hin. by exists x.
  - intros [x Hx]. exists (p, x). split; [done|]. by apply elem_of_map_to_list.
Qed.

Lemma Object_keys_NoDup {A} (m : gmap nat A) : NoDup (Object_keys m).
Proof. apply NoDup_fst_map_to_list. Qed.

(** A participant without a stored share is charged nothing. *)
Lemma itemShareCost_absent ia p i item :
  default ∅ (ia !! i) !! p = None → itemShareCost ia p i item = 0.
Proof.
  intros Hp. unfold itemShareCost. rewrite Hp. cbn [orZero].
  case_bool_decide as H; [|done]. by apply Qclt_not_eq in H.
Qed.

(** An item that costs nothing charges nothing. *)
Lemma itemShareCost_free ia p i item :
  price item * quantity item = 0 → itemShareCost ia p i item = 0.
Proof.
  intros H0. unfold itemShareCost, itemCost. rewrite H0.
  repeat case_bool_decide; ring.
Qed.

(** With non-negative shares, the guard [quantity > 0] only skips zero
    terms: the cost is the plain proportional formula. *)
Lemma itemShareCost_stored ia p i item q :
  default ∅ (ia !! i) !! p = Some q → 0 ≤ q →
  0 < totalAssignedQty (default ∅ (ia !! i)) →
  itemShareCost ia p i item
  = q * (price item * quantity item / totalAssignedQty (default ∅ (ia !! i))).
Proof.
  intros Hp Hq HT. unfold itemShareCost, itemCost.
  rewrite Hp, orZero_Some, (bool_decide_eq_true_2 _ HT).
  assert (totalAssignedQty (default ∅ (ia !! i)) ≠ 0) as HT0
    by (intros E; rewrite E in HT; by apply Qclt_not_eq in HT).
  case_bool_decide as Hpos.
  - by field.
  - assert (q = 0) as -> by (apply Qcle_antisym; [by apply Qcnot_lt_le|done]).
    ring.
Qed.

Lemma sum_itemShareCost_keys ia i item :
  map_Forall (λ _ q, 0 ≤ q) (default ∅ (ia !! i)) →
  0 < totalAssignedQty (default ∅ (ia !! i)) →
  JS.sum ((λ p, itemShareCost ia p i item) <$> Object_keys (default ∅ (ia !! i)))
  = price item * quantity item.
Proof.
  intros Hnn HT. set (m := default ∅ (ia !! i)) in *.
  set (c := price item * quantity item / totalAssignedQty m).
  unfold Object_keys. rewrite <- list_fmap_compose.
  rewrite (sum_fmap_ext _ (λ pq, pq.2 * c)).
  - rewrite sum_fmap_scale. fold (Object_values m). fold (totalAssignedQty m).
    unfold c. field.
    intros E; rewrite E in HT; by apply Qclt_not_eq in HT.
  - intros [p q] Hin%elem_of_map_to_list. simpl.
    by apply itemShareCost_stored; [|apply (Hnn p q)|].
Qed.

End Records.

(** ** The two loops over the items agree *)

Section Loops.

Context (ia : ItemAssignments) (pIndex : nat).

Lemma previewStep_cost acc i item :
  previewStep ia pIndex acc (i, item) = acc + itemShareCost ia pIndex i item.
Proof.
  unfold previewStep, itemShareCost. simpl. case_bool_decide; [done | ring].
Qed.

Lemma splitStep_fst acc its e :
  (splitStep ia pIndex (acc, its) e).1 = previewStep ia pIndex acc e.
Proof.
  destruct e as [i item]. unfold splitStep, previewStep. simpl.
  by case_bool_decide.
Qed.

Lemma foldl_splitStep_fst l acc its :
  (foldl (splitStep ia pIndex) (acc, its) l).1 = foldl (previewStep ia pIndex) acc l.
Proof.
  revert acc its. induction l as [|e l IH]; intros acc its; [done|].
  cbn [foldl]. rewrite <- (splitStep_fst acc its e).
  destruct (splitStep ia pIndex (acc, its) e) as [acc' its']. apply IH.
Qed.

Lemma foldl_previewStep_sum l acc :
  foldl (previewStep ia pIndex) acc l
  = acc + JS.sum ((λ e, itemShareCost ia pIndex e.1 e.2) <$> l).
Proof.
  revert acc. induction l as [|[i item] l IH]; intros acc.
  - cbn [foldl]. rewrite fmap_nil, sum_nil. ring.
  - cbn [foldl]. rewrite IH, fmap_cons, sum_cons, previewStep_cost.
    cbn [fst snd]. ring.
Qed.

End Loops.

(** ** Summing the preview over all participant slots *)

Section PreviewSums.

Lemma subtotalOf_sum its :
  subtotalOf its = JS.sum ((λ item, price item * quantity item) <$> its).
Proof. unfold subtotalOf, JS.sum. by rewrite foldl_fmap. Qed.

Lemma imap_pair_elem {A} (l : list A) (e : nat * A) :
  e ∈ imap pair l → l !! e.1 = Some e.2.
Proof. by intros (i & y & -> & Hl)%elem_of_lookup_imap_1. Qed.

Lemma imap_pair_snd {A} (l : list A) : (imap pair l).*2 = l.
Proof.
  rewrite fmap_imap. rewrite (imap_ext _ (λ _ x, x)) by done.
  induction l as [|x l IH]; [done|]. rewrite imap_cons. f_equal. apply IH.
Qed.

Lemma sum_slots_itemShareCost ia n i item :
  claimedWithin n ia i →
  JS.sum ((λ p, itemShareCost ia p i item) <$> seq 0 n) = price item * quantity item.
Proof.
  intros [Hin HT].
  rewrite (sum_fmap_support _ (Object_keys (default ∅ (ia !! i)))).
  - apply sum_itemShareCost_keys; [|done].
    intros p q Hp. by destruct (Hin p q Hp).
  - apply Object_keys_NoDup.
  - apply NoDup_seq.
  - intros p [q Hq]%Object_keys_elem. apply elem_of_seq.
    destruct (Hin p q Hq). lia.
  - intros p Hp. apply itemShareCost_absent.
    rewrite Object_keys_elem in Hp. by apply eq_None_not_Some.
Qed.

Lemma sum_previewItemsTotal r ia n :
  fullyClaimed (items r) n ia →
  JS.sum (previewItemsTotal r ia <$> seq 0 n) = subtotalOf (items r).
Proof.
  intros Hfull. unfold previewItemsTotal.
  rewrite (sum_fmap_ext _
    (λ p, JS.sum ((λ e, itemShareCost ia p e.1 e.2) <$> imap pair (items r)))).
  2:{ intros p _. rewrite foldl_previewStep_sum. ring. }
  rewrite (sum_exchange (λ p e, itemShareCost ia p e.1 e.2)).
  rewrite subtotalOf_sum.
  rewrite <- (imap_pair_snd (items r)) at 2.
  rewrite <- list_fmap_compose. apply sum_fmap_ext.
  intros [i item] Hin. cbn [fst snd compose].
  unfold fullyClaimed in Hfull. rewrite Forall_forall in Hfull.
  destruct (Hfull _ Hin) as [Hfree|Hclaimed]; cbn [fst snd] in *.
  - rewrite Hfree. apply sum_fmap_zero. intros p _. by apply itemShareCost_free.
  - by apply sum_slots_itemShareCost.
Qed.

Lemma participantTotals_taxPortions st r :
  receipt st = Some r →
  pt_taxPortion <$> participantTotals st
  = (λ p, taxPortionOf (subtotalOf (items r))
            (previewItemsTotal r (itemAssignments st) p) r)
      <$> seq 0 (length (participants st)).
Proof.
  intros Hr. unfold participantTotals. rewrite Hr, fmap_imap.
  rewrite <- imap_seq_0. by apply imap_ext.
Qed.

Lemma participantTotals_itemsTotals st r :
  receipt st = Some r →
  pt_itemsTotal <$> participantTotals st
  = previewItemsTotal r (itemAssignments st) <$> seq 0 (length (participants st)).
Proof.
  intros Hr. unfold participantTotals. rewrite Hr, fmap_imap.
  rewrite <- imap_seq_0. by apply imap_ext.
Qed.

Lemma taxPortionOf_nonpositive s t r : ¬ 0 < s → taxPortionOf s t r = 0.
Proof. intros Hs. unfold taxPortionOf. by rewrite bool_decide_eq_false_2. Qed.

End PreviewSums.

(** C1. Proportional allocation reconstitutes the cost of an item: when the
    shares stored for item [itemIndex] are non-negative (the data model's
    shares) and their sum is strictly positive, the costs charged for the
    item to the participants holding a share add up to
    [quantity * price] exactly, whatever the item's nominal quantity; and so
    do the costs charged over the slots of any participant list that covers
    the indices holding a share. *)
Theorem C1_shares_reconstitute_line_total
    (ia : ItemAssignments) (itemIndex : nat) (item : ReceiptItem) :
  nonNegativeShares ia itemIndex →
  0 < totalAssignedQty (default ∅ (ia !! itemIndex)) →
  JS.sum ((λ p, previewStep ia p 0 (itemIndex, item))
            <$> Object_keys (default ∅ (ia !! itemIndex)))
  = quantity item * price item
  ∧ JS.sum ((λ p, (splitStep ia p (0, []) (itemIndex, item)).1)
            <$> Object_keys (default ∅ (ia !! itemIndex)))
  = quantity item * price item
  ∧ ∀ n, map_Forall (λ p _, (p < n)%nat) (default ∅ (ia !! itemIndex)) →
      JS.sum ((λ p, previewStep ia p 0 (itemIndex, item)) <$> seq 0 n)
      = quantity item * price item.
Proof.
  intros Hnn HT.
  assert (∀ p, previewStep ia p 0 (itemIndex, item)
               = itemShareCost ia p itemIndex item) as Hp
    by (intros p; rewrite previewStep_cost; ring).
  split; [|split].
  - rewrite (sum_fmap_ext _ (λ p, itemShareCost ia p itemIndex item)) by auto.
    rewrite sum_itemShareCost_keys by done. ring.
  - rewrite (sum_fmap_ext _ (λ p, itemShareCost ia p itemIndex item)).
    + rewrite sum_itemShareCost_keys by done. ring.
    + intros p _. by rewrite splitStep_fst.
  - intros n Hn.
    rewrite (sum_fmap_ext _ (λ p, itemShareCost ia p itemIndex item)) by auto.
    rewrite (sum_slots_itemShareCost ia n); [ring|].
    split; [|done]. intros p q Hpq. split; [by apply (Hn p q) | by apply (Hnn p q)].
Qed.

(** C1 at an item of three nominal units of which Alice claims one and Bob
    two. *)
Lemma C1_witness_uneven_shares :
  JS.sum ((λ p, previewStep unevenShares p 0 (0%nat, threeUnits))
            <$> Object_keys (default ∅ (unevenShares !! 0%nat)))
  = quantity threeUnits * price threeUnits
  ∧ JS.sum ((λ p, (splitStep unevenShares p (0, []) (0%nat, threeUnits)).1)
            <$> Object_keys (default ∅ (unevenShares !! 0%nat)))
  = quantity threeUnits * price threeUnits
  ∧ JS.sum ((λ p, previewStep unevenShares p 0 (0%nat, threeUnits)) <$> seq 0 3)
  = quantity threeUnits * price threeUnits.
Proof.
  destruct (C1_shares_reconstitute_line_total unevenShares 0 threeUnits)
    as (H1 & H2 & H3).
  - apply (bool_decide_unpack _). by vm_compute.
  - by vm_compute.
  - split; [exact H1|]. split; [exact H2|]. apply H3.
    apply (bool_decide_unpack _). by vm_compute.
Defined.

(** ** What [calculateSplit] stores *)

Section Settlement.

Lemma calculateSplit_refuses st r :
  receipt st = Some r → validParticipantsOf (participants st) = [] →
  calculateSplit st = set_error (Some PleaseAddParticipant) st.
Proof. intros Hr Hv. unfold calculateSplit. by rewrite Hr, Hv. Qed.

Lemma calculateSplit_results st r :
  receipt st = Some r → validParticipantsOf (participants st) ≠ [] →
  splitResults (calculateSplit st)
  = Some {| sr_participants :=
              imap (splitEntry r (itemAssignments st))
                   (validParticipantsOf (participants st));
            sr_originalTotal := total r;
            sr_splitTotal :=
              JS.sum (pr_total <$>
                        imap (splitEntry r (itemAssignments st))
                             (validParticipantsOf (participants st)));
            sr_subtotal := subtotalOf (items r);
            sr_tax := tax r |}.
Proof.
  intros Hr Hv. unfold calculateSplit. rewrite Hr.
  rewrite bool_decide_eq_false_2 by (by destruct (validParticipantsOf _)).
  cbn [goToStep set_splitResults splitResults]. f_equal.
  unfold JS.sum. by rewrite foldl_fmap, orZeroNum_id.
Qed.

(** The settlement rounds what the preview computes for the same index. *)
Lemma splitEntry_rounds r ia p nm :
  pr_name (splitEntry r ia p nm) = trim nm
  ∧ pr_itemsTotal (splitEntry r ia p nm) = round2 (previewItemsTotal r ia p)
  ∧ pr_taxPortion (splitEntry r ia p nm)
    = round2 (taxPortionOf (subtotalOf (items r)) (previewItemsTotal r ia p) r)
  ∧ pr_total (splitEntry r ia p nm)
    = round2 (previewItemsTotal r ia p
              + taxPortionOf (subtotalOf (items r)) (previewItemsTotal r ia p) r).
Proof.
  unfold splitEntry, previewItemsTotal.
  rewrite <- (foldl_splitStep_fst ia p (imap pair (items r)) 0 []).
  by destruct (foldl (splitStep ia p) (0, []) (imap pair (items r))).
Qed.

Lemma round2_0 : round2 0 = 0.
Proof. apply (bool_decide_eq_true_1 _). by vm_compute. Qed.

End Settlement.

(** C2 (as stated, refuted). In scenario C with two participants the
    subtotal is 15, the tax is 5, and the tax portions add up to 0. *)
Lemma C2_counterexample_unclaimed_item :
  ¬ (∀ st r, receipt st = Some r → 0 < subtotalOf (items r) →
             JS.sum (pt_taxPortion <$> participantTotals st) = tax r).
Proof.
  intros H. specialize (H (scenarioC [Alice; Bob] ∅) receiptC eq_refl).
  assert (bool_decide
            (JS.sum (pt_taxPortion <$> participantTotals (scenarioC [Alice; Bob] ∅))
             = tax receiptC) = false) as Hne by (by vm_compute).
  apply bool_decide_eq_false_1 in Hne. apply Hne, H. by vm_compute.
Qed.

(** C2 (amended). When the subtotal is strictly positive and every item of
    the receipt is claimed within the participant list (non-negative shares,
    stored under indices of the list, with a strictly positive sum), the tax
    portions of the preview add up to [receipt.tax]; when the subtotal is not
    strictly positive, every tax portion is 0, in the preview and in the
    settlement. *)
Theorem C2_tax_portions_sum_when_fully_claimed (st : State) (r : Receipt) :
  receipt st = Some r →
  (0 < subtotalOf (items r) →
   JS.sum (pt_taxPortion <$> participantTotals st)
   = JS.sum (pt_itemsTotal <$> participantTotals st) / subtotalOf (items r) * tax r)
  ∧ (0 < subtotalOf (items r) →
     fullyClaimed (items r) (length (participants st)) (itemAssignments st) →
     JS.sum (pt_taxPortion <$> participantTotals st) = tax r)
  ∧ (¬ 0 < subtotalOf (items r) →
     Forall (λ e, pt_taxPortion e = 0) (participantTotals st)
     ∧ (validParticipantsOf (participants st) ≠ [] →
        ∃ sr, splitResults (calculateSplit st) = Some sr
              ∧ Forall (λ e, pr_taxPortion e = 0) (sr_participants sr))).
Proof.
  intros Hr.
  assert (0 < subtotalOf (items r) →
          JS.sum (pt_taxPortion <$> participantTotals st)
          = JS.sum (pt_itemsTotal <$> participantTotals st)
            / subtotalOf (items r) * tax r) as Hgen.
  { intros HS.
    rewrite (participantTotals_taxPortions st r Hr),
            (participantTotals_itemsTotals st r Hr).
    assert (subtotalOf (items r) ≠ 0) as HS0
      by (intros E; rewrite E in HS; by apply Qclt_not_eq in HS).
    rewrite (sum_fmap_ext _
      (λ p, previewItemsTotal r (itemAssignments st) p * (tax r / subtotalOf (items r)))).
    - rewrite sum_fmap_scale. by field.
    - intros p _. unfold taxPortionOf.
      rewrite (bool_decide_eq_true_2 _ HS), orZeroNum_id. by field. }
  split; [done|]. split.
  - intros HS Hfull. rewrite (Hgen HS), (participantTotals_itemsTotals st r Hr).
    rewrite sum_previewItemsTotal by done. field.
    intros E; rewrite E in HS; by apply Qclt_not_eq in HS.
  - intros HS. split.
    + unfold participantTotals. rewrite Hr. apply Forall_forall.
      intros e (p & nm & -> & _)%elem_of_lookup_imap_1. simpl.
      by apply taxPortionOf_nonpositive.
    + intros Hv. eexists. split; [by apply calculateSplit_results|].
      simpl. apply Forall_forall.
      intros e (p & nm & -> & _)%elem_of_lookup_imap_1.
      destruct (splitEntry_rounds r (itemAssignments st) p nm) as (_ & _ & -> & _).
      rewrite taxPortionOf_nonpositive by done. apply round2_0.
Qed.

(** The amended C2 at scenario B (one claimed item, tax 10) and at a receipt
    with a zero subtotal. *)
Lemma C2_witness_scenarioB :
  JS.sum (pt_taxPortion <$> participantTotals scenarioB) = tax receiptB
  ∧ Forall (λ e, pt_taxPortion e = 0) (participantTotals scenarioFree).
Proof.
  destruct (C2_tax_portions_sum_when_fully_claimed scenarioB receiptB eq_refl)
    as (_ & HB & _).
  destruct (C2_tax_portions_sum_when_fully_claimed scenarioFree receiptFree eq_refl)
    as (_ & _ & HF).
  split.
  - apply HB.
    + by vm_compute.
    + apply (bool_decide_unpack _). by vm_compute.
  - apply HF. by vm_compute.
Defined.

(** ** Blank slots *)

Section Filtering.

Lemma filter_all_true {A} (P : A → Prop) `{!∀ x, Decision (P x)} (l : list A) :
  Forall P l → filter P l = l.
Proof.
  induction 1 as [|x l Hx _ IH]; [done|].
  by rewrite filter_cons_True, IH.
Qed.

(** A participant with no blank slot before them keeps their position. *)
Lemma validParticipantsOf_lookup ps j nm :
  noBlankUpTo j ps → ps !! j = Some nm → validParticipantsOf ps !! j = Some nm.
Proof.
  intros Hnb Hj. unfold validParticipantsOf.
  rewrite <- (take_drop (S j) ps) at 1. rewrite filter_app.
  rewrite (filter_all_true _ _ Hnb).
  rewrite lookup_app_l by (rewrite length_take; apply lookup_lt_Some in Hj; lia).
  rewrite lookup_take_lt by lia. done.
Qed.

End Filtering.

(** C3 (as stated, refuted). With a blank first slot and Bob in the second:
    when the only share is stored under Bob's index 1, the settlement charges
    Bob nothing, where a lookup under his original index charges him 10; and
    when the only share is stored under the blank slot's index 0, the preview
    carries an entry of 10 for the blank slot instead of skipping it. *)
Lemma C3_counterexample_blank_first_slot :
  (pr_total <$> default [] (sr_participants <$>
      splitResults (calculateSplit (blankThenBob {[ 0%nat := {[ 1%nat := 1 ]} ]})))
   = [0]
   ∧ pr_total <$> default [] (sr_participants <$>
      splitResults (calculateSplit (blankThenBob {[ 0%nat := {[ 1%nat := 1 ]} ]})))
     ≠ pr_total <$> spec_settlementEntries receiptTen {[ 0%nat := {[ 1%nat := 1 ]} ]} [[]; Bob])
  ∧ (pt_total <$> participantTotals (blankThenBob {[ 0%nat := {[ 0%nat := 1 ]} ]})
     = [qz 10; 0]
     ∧ pt_total <$> participantTotals (blankThenBob {[ 0%nat := {[ 0%nat := 1 ]} ]})
       ≠ pt_total <$> spec_previewEntries receiptTen {[ 0%nat := {[ 0%nat := 1 ]} ]} [[]; Bob]).
Proof.
  repeat split;
    (apply (bool_decide_eq_true_1 _) || apply (bool_decide_eq_false_1 _));
    by vm_compute.
Qed.

(** C3 (amended). The settlement holds one entry per participant whose
    trimmed name is non-empty, in order and under the trimmed name, and none
    for a blank slot; a participant with no blank slot before them is looked
    up in the assignment map under their original index, and their settlement
    entry is the rounding of their preview entry. The preview holds one entry
    per slot, blank ones included, each computed from the shares stored under
    that slot's index. *)
Theorem C3_filtering_rule (st : State) (r : Receipt) :
  receipt st = Some r →
  (length (participantTotals st) = length (participants st)
   ∧ ∀ j nm, participants st !! j = Some nm →
       participantTotals st !! j = Some (previewEntry r (itemAssignments st) j nm))
  ∧ (validParticipantsOf (participants st) ≠ [] →
     ∃ sr, splitResults (calculateSplit st) = Some sr
       ∧ pr_name <$> sr_participants sr = trim <$> validParticipantsOf (participants st)
       ∧ Forall (λ e, truthyString (pr_name e) = true) (sr_participants sr)
       ∧ ∀ j nm, participants st !! j = Some nm → noBlankUpTo j (participants st) →
           sr_participants sr !! j = Some (splitEntry r (itemAssignments st) j nm)
           ∧ pr_itemsTotal (splitEntry r (itemAssignments st) j nm)
             = round2 (pt_itemsTotal (previewEntry r (itemAssignments st) j nm))
           ∧ pr_taxPortion (splitEntry r (itemAssignments st) j nm)
             = round2 (pt_taxPortion (previewEntry r (itemAssignments st) j nm))
           ∧ pr_total (splitEntry r (itemAssignments st) j nm)
             = round2 (pt_total (previewEntry r (itemAssignments st) j nm))).
Proof.
  intros Hr. split.
  - unfold participantTotals. rewrite Hr. split; [by rewrite length_imap|].
    intros j nm Hj. by rewrite list_lookup_imap, Hj.
  - intros Hv. eexists. split; [by apply calculateSplit_results|].
    cbn [sr_participants]. split; [|split].
    + rewrite fmap_imap. rewrite <- imap_const. apply imap_ext.
      intros j nm _. simpl. by destruct (splitEntry_rounds r (itemAssignments st) j nm).
    + apply Forall_forall. intros e (j & nm & -> & Hj)%elem_of_lookup_imap_1.
      destruct (splitEntry_rounds r (itemAssignments st) j nm) as [-> _].
      apply list_elem_of_lookup_2 in Hj.
      by apply list_elem_of_filter in Hj as [? _].
    + intros j nm Hj Hnb.
      destruct (splitEntry_rounds r (itemAssignments st) j nm) as (_ & ? & ? & ?).
      rewrite list_lookup_imap, (validParticipantsOf_lookup _ j nm) by done.
      auto.
Qed.

(** The amended C3 at the state with the blank slot first: the preview has
    two entries, the settlement the single entry of Bob. *)
Lemma C3_witness_blank_first_slot :
  length (participantTotals (blankThenBob {[ 0%nat := {[ 1%nat := 1 ]} ]})) = 2%nat
  ∧ ∃ sr, splitResults (calculateSplit (blankThenBob {[ 0%nat := {[ 1%nat := 1 ]} ]})) = Some sr
          ∧ pr_name <$> sr_participants sr = [Bob].
Proof.
  destruct (C3_filtering_rule (blankThenBob {[ 0%nat := {[ 1%nat := 1 ]} ]}) receiptTen eq_refl)
    as [[Hlen _] Hsettle].
  split; [exact Hlen|].
  destruct Hsettle as (sr & Hsr & Hnames & _).
  - by vm_compute.
  - exists sr. split; [exact Hsr|]. rewrite Hnames. reflexivity.
Defined.

(** ** Unclaimed items *)

Section Unclaimed.

Lemma itemShareCost_unclaimed ia p i item :
  totalAssignedQty (default ∅ (ia !! i)) = 0 → itemShareCost ia p i item = 0.
Proof.
  intros HT. unfold itemShareCost, itemCost. rewrite HT.
  case_bool_decide; [|done].
  rewrite bool_decide_eq_false_2; [done|]. intros H0. by apply Qclt_not_eq in H0.
Qed.

Lemma taxPortionOf_0 s r : taxPortionOf s 0 r = 0.
Proof. unfold taxPortionOf, Qcdiv. case_bool_decide; [ring|done]. Qed.

Lemma previewItemsTotal_receiptC ia p :
  default ∅ (ia !! 0%nat) = ∅ → previewItemsTotal receiptC ia p = 0.
Proof.
  intros He. unfold previewItemsTotal, receiptC. cbn [items imap foldl].
  rewrite previewStep_cost, itemShareCost_unclaimed; [ring|].
  rewrite He. apply totalAssignedQty_empty.
Qed.

Lemma sum_zeros {A} (f : A → Qc) l : Forall (λ a, f a = 0) l → JS.sum (f <$> l) = 0.
Proof. rewrite Forall_forall. apply sum_fmap_zero. Qed.

End Unclaimed.

(** C4. An item whose total assigned quantity is zero adds nothing to any
    participant's [itemsTotal], in the preview and in the settlement. In
    scenario C (one item [{quantity: 1, price: 15}], tax 5, total 20, nothing
    assigned) every participant's itemsTotal, taxPortion and total are 0,
    [splitTotal] is 0 and [originalTotal] is 20. *)
Theorem C4_unclaimed_item_is_excluded :
  (∀ ia p i item acc its,
     totalAssignedQty (default ∅ (ia !! i)) = 0 →
     previewStep ia p acc (i, item) = acc
     ∧ (splitStep ia p (acc, its) (i, item)).1 = acc)
  ∧ (∀ ps ia, default ∅ (ia !! 0%nat) = ∅ →
       Forall (λ e, pt_itemsTotal e = 0 ∧ pt_taxPortion e = 0 ∧ pt_total e = 0)
              (participantTotals (scenarioC ps ia))
       ∧ (validParticipantsOf ps ≠ [] →
          ∃ sr, splitResults (calculateSplit (scenarioC ps ia)) = Some sr
                ∧ length (sr_participants sr) = length (validParticipantsOf ps)
                ∧ Forall (λ e, pr_itemsTotal e = 0 ∧ pr_taxPortion e = 0 ∧ pr_total e = 0)
                         (sr_participants sr)
                ∧ sr_splitTotal sr = 0
                ∧ sr_originalTotal sr = qz 20)).
Proof.
  split.
  - intros ia p i item acc its HT.
    rewrite splitStep_fst, previewStep_cost, itemShareCost_unclaimed by done.
    split; ring.
  - intros ps ia He. split.
    + apply Forall_forall.
      intros e (p & nm & -> & _)%elem_of_lookup_imap_1.
      unfold previewEntry. cbn [pt_itemsTotal pt_taxPortion pt_total].
      rewrite previewItemsTotal_receiptC, taxPortionOf_0 by done.
      repeat split; ring.
    + intros Hv.
      assert (Forall (λ e, pr_itemsTotal e = 0 ∧ pr_taxPortion e = 0 ∧ pr_total e = 0)
                (imap (splitEntry receiptC ia) (validParticipantsOf ps))) as Hz.
      { apply Forall_forall.
        intros e (p & nm & -> & _)%elem_of_lookup_imap_1.
        destruct (splitEntry_rounds receiptC ia p nm) as (_ & -> & -> & ->).
        rewrite previewItemsTotal_receiptC, taxPortionOf_0 by done.
        replace (0 + 0) with 0 by ring. by rewrite round2_0. }
      eexists. split; [by apply (calculateSplit_results (scenarioC ps ia) receiptC)|].
      cbn [sr_participants sr_splitTotal sr_originalTotal scenarioC initialState
           itemAssignments participants].
      split; [by rewrite length_imap|]. split; [done|]. split; [|done].
      apply sum_zeros. eapply Forall_impl; [exact Hz|]. by intros e (_ & _ & ?).
Qed.

(** C4 at two participants and the empty assignment map. *)
Lemma C4_witness_two_participants :
  ∃ sr, splitResults (calculateSplit (scenarioC [Alice; Bob] ∅)) = Some sr
        ∧ sr_splitTotal sr = 0 ∧ sr_originalTotal sr = qz 20.
Proof.
  destruct (proj2 C4_unclaimed_item_is_excluded [Alice; Bob] ∅) as [_ H].
  - by vm_compute.
  - destruct H as (sr & Hsr & _ & _ & Hsplit & Horig).
    + by vm_compute.
    + exists sr. auto.
Defined.

(** ** Rounding to cents *)

Section Rounding.

(** [Math.round] picks the integer within one half, ties upwards. *)
Lemma Math_round_bounds (y : Qc) :
  ∃ z : Z, Math_round y = Qc_of_Z z
           ∧ y - Q2Qc (1 # 2) < Qc_of_Z z ∧ Qc_of_Z z ≤ y + Q2Qc (1 # 2).
Proof.
  exists (Qfloor (y + (1 # 2))%Q). split; [done|].
  pose proof (Qfloor_le (y + (1 # 2))%Q) as Hle.
  pose proof (Qlt_floor (y + (1 # 2))%Q) as Hlt.
  rewrite inject_Z_plus in Hlt.
  split.
  - unfold Qclt, Qcminus, Qcplus, Qcopp, Q2Qc. cbn [this Qc_of_Z].
    rewrite !Qred_correct. change (inject_Z 1) with 1%Q in Hlt. lra.
  - unfold Qcle, Qcplus, Q2Qc. cbn [this Qc_of_Z].
    rewrite !Qred_correct. lra.
Qed.

End Rounding.

(** C5. In the settlement each of [total], [itemsTotal] and [taxPortion] is
    rounded on its own to a whole number of cents (the nearest one, ties
    upwards), and [splitTotal] is the sum of the rounded totals. In scenario D
    (one item of 10.00, no tax, three equal shares) every participant's total
    is 3.33 and [splitTotal] is 9.99, not the [originalTotal] 10.00. *)
Theorem C5_independent_rounding :
  (∀ st r, receipt st = Some r → validParticipantsOf (participants st) ≠ [] →
     ∃ sr, splitResults (calculateSplit st) = Some sr
       ∧ sr_splitTotal sr = JS.sum (pr_total <$> sr_participants sr)
       ∧ ∀ j e, sr_participants sr !! j = Some e →
           let itemsTotal := previewItemsTotal r (itemAssignments st) j in
           let taxPortion := taxPortionOf (subtotalOf (items r)) itemsTotal r in
           pr_itemsTotal e = round2 itemsTotal
           ∧ pr_taxPortion e = round2 taxPortion
           ∧ pr_total e = round2 (itemsTotal + taxPortion))
  ∧ (∀ x, ∃ cents : Z,
        round2 x = Qc_of_Z cents / Qc_of_Z 100
        ∧ x * Qc_of_Z 100 - Q2Qc (1 # 2) < Qc_of_Z cents
        ∧ Qc_of_Z cents ≤ x * Qc_of_Z 100 + Q2Qc (1 # 2))
  ∧ (∃ sr, splitResults (calculateSplit scenarioD) = Some sr
       ∧ pr_total <$> sr_participants sr
         = [Q2Qc (333 # 100); Q2Qc (333 # 100); Q2Qc (333 # 100)]
       ∧ sr_splitTotal sr = Q2Qc (999 # 100)
       ∧ sr_originalTotal sr = qz 10
       ∧ sr_splitTotal sr ≠ sr_originalTotal sr).
Proof.
  split; [|split].
  - intros st r Hr Hv. eexists. split; [by apply calculateSplit_results|].
    cbn [sr_participants sr_splitTotal]. split; [done|].
    intros j e Hj. rewrite list_lookup_imap in Hj.
    destruct (validParticipantsOf (participants st) !! j) as [nm|]; [|done].
    injection Hj as <-.
    by destruct (splitEntry_rounds r (itemAssignments st) j nm) as (_ & ? & ? & ?).
  - intros x. destruct (Math_round_bounds (x * Qc_of_Z 100)) as (z & Hz & Hlo & Hhi).
    exists z. unfold round2. by rewrite Hz.
  - eexists. split; [by apply (calculateSplit_results scenarioD _ eq_refl)|].
    cbn [sr_participants sr_splitTotal sr_originalTotal].
    repeat split;
      (apply (bool_decide_eq_true_1 _) || apply (bool_decide_eq_false_1 _));
      by vm_compute.
Qed.

(** C5 at scenario B: the single entry is rounded field by field. *)
Lemma C5_witness_scenarioB :
  ∃ sr, splitResults (calculateSplit scenarioB) = Some sr
        ∧ sr_splitTotal sr = JS.sum (pr_total <$> sr_participants sr).
Proof.
  destruct (proj1 C5_independent_rounding scenarioB receiptB eq_refl)
    as (sr & Hsr & Hsum & _).
  - by vm_compute.
  - exists sr. auto.
Defined.

(** ** The assignment map under the user's actions *)

Section AssignmentOps.

Lemma positiveShares_insert ia i m :
  positiveShares ia → map_Forall (λ (_ : nat) (q : Qc), 0 < q) m →
  positiveShares (<[i := m]> ia).
Proof. intros Hia Hm. by apply map_Forall_insert_2. Qed.

Lemma positiveShares_ensureItem ia i :
  positiveShares ia → positiveShares (ensureItem i ia).
Proof.
  intros Hia. unfold ensureItem. destruct (ia !! i); [done|].
  apply positiveShares_insert; [done | apply map_Forall_empty].
Qed.

Lemma positiveShares_item ia i :
  positiveShares ia → map_Forall (λ (_ : nat) (q : Qc), 0 < q) (default ∅ (ia !! i)).
Proof.
  intros Hia. destruct (ia !! i) as [m|] eqn:Hi; simpl.
  - by apply (Hia i m).
  - apply map_Forall_empty.
Qed.

Lemma orZero_nonneg (m : gmap nat Qc) p :
  map_Forall (λ (_ : nat) (q : Qc), 0 < q) m → 0 ≤ orZero (m !! p).
Proof.
  intros Hm. destruct (m !! p) as [q|] eqn:Hp; simpl.
  - rewrite orZeroNum_id. apply Qclt_le_weak. by apply (Hm p q).
  - done.
Qed.

Lemma positiveShares_step st op :
  positiveShares (itemAssignments st) → positiveShares (itemAssignments (step st op)).
Proof.
  intros Hia. destruct op as [p|i|i p|i p|i p]; simpl.
  - done.
  - unfold assignItemToSelected.
    destruct (selectedParticipantIndex st) as [p|]; [|done].
    pose proof (positiveShares_ensureItem _ i Hia) as Hia'.
    destruct (falsy _); simpl; [|done].
    apply positiveShares_insert; [done|].
    apply map_Forall_insert_2; [done | by apply positiveShares_item].
  - unfold increaseItemQuantity. simpl.
    pose proof (positiveShares_ensureItem _ i Hia) as Hia'.
    apply positiveShares_insert; [done|].
    apply map_Forall_insert_2; [|by apply positiveShares_item].
    rewrite Qcplus_comm. apply Qcplus_pos_nonneg; [done|].
    by apply orZero_nonneg, positiveShares_item.
  - unfold decreaseItemQuantity.
    destruct (itemAssignments st !! i) as [m|] eqn:Hi; [|done].
    pose proof (Hia i m Hi) as Hm. simpl in Hm.
    case_bool_decide as Hgt; simpl.
    + apply positiveShares_insert; [done|].
      apply map_Forall_insert_2; [|done].
      apply (Qcplus_lt_mono_r _ _ 1).
      by replace (orZero (m !! p) - 1 + 1) with (orZero (m !! p)) by ring.
    + case_bool_decide; simpl; [|done].
      apply positiveShares_insert; [done|]. by apply map_Forall_delete.
  - unfold removeAssignment.
    destruct (itemAssignments st !! i) as [m|] eqn:Hi; [|done]. simpl.
    apply positiveShares_insert; [done|].
    apply map_Forall_delete. by apply (Hia i m).
Qed.

Lemma positiveShares_run ops st :
  positiveShares (itemAssignments st) → positiveShares (itemAssignments (run ops st)).
Proof.
  revert st. induction ops as [|op ops IH]; intros st Hst; [done|].
  apply IH, positiveShares_step, Hst.
Qed.

Lemma shareOf_insert_eq ia i (m : gmap nat Qc) p :
  shareOf (<[i := m]> ia) i p = m !! p.
Proof. unfold shareOf. by rewrite lookup_insert_eq. Qed.

Lemma shareOf_Some ia i p q :
  shareOf ia i p = Some q ↔ ∃ m, ia !! i = Some m ∧ m !! p = Some q.
Proof.
  unfold shareOf. destruct (ia !! i) as [m|]; simpl.
  - split; [by exists m | by intros (? & [= <-] & ?)].
  - split; [done | by intros (? & ? & ?)].
Qed.

Lemma state_eta st :
  mkState (currentStep st) (receipt st) (participants st) (itemAssignments st)
          (splitResults st) (error st) (selectedParticipantIndex st) = st.
Proof. by destruct st. Qed.

End AssignmentOps.

(** C6. Starting from an empty assignment map, after any finite sequence of
    select, assign, increase, decrease and unassign actions every stored share
    is strictly positive. Decrease on a share equal to 1 deletes the entry (a
    later read finds it absent, not present with value 0); decrease on a share
    greater than 1 lowers it by exactly 1. *)
Theorem C6_stored_shares_are_positive :
  (∀ ops st, map_Forall (λ _ assignments, assignments = ∅) (itemAssignments st) →
     positiveShares (itemAssignments (run ops st)))
  ∧ (∀ st i p, shareOf (itemAssignments st) i p = Some 1 →
       shareOf (itemAssignments (decreaseItemQuantity i p st)) i p = None)
  ∧ (∀ st i p q, shareOf (itemAssignments st) i p = Some q → 1 < q →
       shareOf (itemAssignments (decreaseItemQuantity i p st)) i p = Some (q - 1)).
Proof.
  split; [|split].
  - intros ops st He. apply positiveShares_run.
    intros i m Hi. rewrite (He i m Hi). apply map_Forall_empty.
  - intros st i p (m & Hi & Hp)%shareOf_Some. unfold decreaseItemQuantity.
    rewrite Hi, Hp, orZero_Some.
    rewrite bool_decide_eq_false_2 by (by vm_compute).
    rewrite bool_decide_eq_true_2 by done. simpl.
    by rewrite shareOf_insert_eq, lookup_delete_eq.
  - intros st i p q (m & Hi & Hp)%shareOf_Some Hq. unfold decreaseItemQuantity.
    rewrite Hi, Hp, orZero_Some, (bool_decide_eq_true_2 _ Hq). simpl.
    by rewrite shareOf_insert_eq, lookup_insert_eq.
Qed.

(** C6 on a short session: select Alice, claim item 0, let Bob claim it
    twice, let Alice drop her claim. *)
Lemma C6_witness_short_session :
  positiveShares
    (itemAssignments
       (run [OpSelect 0; OpAssign 0; OpIncrease 0 1; OpIncrease 0 1; OpDecrease 0 0]
            (initialState receiptTen [Alice; Bob] ∅)))
  ∧ shareOf (itemAssignments (decreaseItemQuantity 0 0 scenarioUneven)) 0 0 = None
  ∧ shareOf (itemAssignments (decreaseItemQuantity 0 1 scenarioUneven)) 0 1
    = Some (qz 2 - 1).
Proof.
  split; [|split].
  - apply (proj1 C6_stored_shares_are_positive). apply map_Forall_empty.
  - apply (proj1 (proj2 C6_stored_shares_are_positive)).
    apply (bool_decide_eq_true_1 _). by vm_compute.
  - apply (proj2 (proj2 C6_stored_shares_are_positive)).
    + apply (bool_decide_eq_true_1 _). by vm_compute.
    + by vm_compute.
Defined.

(** C7. Assign on a pair that already holds a positive share leaves the
    whole state unchanged; unassign on a pair with no stored entry leaves the
    assignment map, and the whole state, unchanged; assign on a pair with no
    stored entry sets its share to exactly 1. *)
Theorem C7_assign_idempotent_unassign_noop :
  (∀ st i p q, selectedParticipantIndex st = Some p →
     shareOf (itemAssignments st) i p = Some q → 0 < q →
     assignItemToSelected i st = st)
  ∧ (∀ st i p, shareOf (itemAssignments st) i p = None →
       removeAssignment i p st = st)
  ∧ (∀ st i p, selectedParticipantIndex st = Some p →
       shareOf (itemAssignments st) i p = None →
       shareOf (itemAssignments (assignItemToSelected i st)) i p = Some 1).
Proof.
  split; [|split].
  - intros st i p q Hsel (m & Hi & Hp)%shareOf_Some Hq.
    unfold assignItemToSelected, ensureItem. rewrite Hsel, Hi. simpl.
    rewrite Hi. simpl. rewrite Hp. simpl.
    rewrite bool_decide_eq_false_2
      by (intros ->; by apply Qclt_not_eq in Hq).
    apply state_eta.
  - intros st i p Hnone. unfold removeAssignment, shareOf in *.
    destruct (itemAssignments st !! i) as [m|] eqn:Hi; [|done]. simpl in Hnone.
    rewrite delete_id, insert_id by done. apply state_eta.
  - intros st i p Hsel Hnone. unfold assignItemToSelected, ensureItem, shareOf in *.
    rewrite Hsel.
    destruct (itemAssignments st !! i) as [m|] eqn:Hi; simpl in *.
    + rewrite Hi. simpl. rewrite Hnone. simpl.
      by rewrite lookup_insert_eq; simpl; rewrite lookup_insert_eq.
    + rewrite lookup_insert_eq. simpl. rewrite lookup_empty. simpl.
      by rewrite lookup_insert_eq; simpl; rewrite lookup_insert_eq.
Qed.

(** C7 on the state where Alice holds one unit and Bob two of item 0, and
    Carol holds nothing. *)
Lemma C7_witness_uneven_shares :
  assignItemToSelected 0 (selectParticipant 1 scenarioUneven)
  = selectParticipant 1 scenarioUneven
  ∧ removeAssignment 0 2 scenarioUneven = scenarioUneven
  ∧ shareOf (itemAssignments
               (assignItemToSelected 0 (selectParticipant 2 scenarioUneven))) 0 2
    = Some 1.
Proof.
  split; [|split].
  - apply (proj1 C7_assign_idempotent_unassign_noop _ 0%nat 1%nat (qz 2)).
    + reflexivity.
    + apply (bool_decide_eq_true_1 _). by vm_compute.
    + by vm_compute.
  - apply (proj1 (proj2 C7_assign_idempotent_unassign_noop)).
    apply (bool_decide_eq_true_1 _). by vm_compute.
  - apply (proj2 (proj2 C7_assign_idempotent_unassign_noop)).
    + reflexivity.
    + apply (bool_decide_eq_true_1 _). by vm_compute.
Defined.

(** ** The receipt setters *)

Section Setters.

Lemma subtotalOf_spec_total its tx : subtotalOf its + orZeroNum tx = spec_total its tx.
Proof.
  unfold spec_total. rewrite subtotalOf_sum, orZeroNum_id. f_equal.
  apply sum_fmap_ext. intros item _. ring.
Qed.

Lemma recalculateTotal_set_receipt st its tx tot :
  recalculateTotal (set_receipt (mkReceipt its tx tot) st)
  = set_receipt (mkReceipt its tx (spec_total its tx)) st.
Proof.
  unfold recalculateTotal, set_receipt. simpl.
  by rewrite subtotalOf_spec_total.
Qed.

Lemma gtb_Num q b : gtb (Num q) b = bool_decide (b < q).
Proof. done. Qed.

Lemma geb_Num q b : geb (Num q) b = bool_decide (b ≤ q).
Proof. done. Qed.

End Setters.

(** C8. For an item index within bounds: the quantity setter leaves the state
    unchanged when the value is not a number or is [<= 0], and otherwise
    stores the quantity and sets [total] to [sum(quantity*price) + tax]; the
    price setter does the same with rejection of values [< 0]; the tax setter
    rejects not-a-number and values [< 0] and otherwise stores the tax and
    recomputes [total] by the same formula. *)
Theorem C8_setters_reject_or_recompute (st : State) (r : Receipt) :
  receipt st = Some r →
  (∀ index item, items r !! index = Some item →
     updateItemQuantity index NaN st = st
     ∧ (∀ q, q ≤ 0 → updateItemQuantity index (Num q) st = st)
     ∧ (∀ q, 0 < q →
          let its := <[index := mkItem (name item) q (price item)]> (items r) in
          updateItemQuantity index (Num q) st
          = set_receipt (mkReceipt its (tax r) (spec_total its (tax r))) st)
     ∧ updateItemPrice index NaN st = st
     ∧ (∀ q, q < 0 → updateItemPrice index (Num q) st = st)
     ∧ (∀ q, 0 ≤ q →
          let its := <[index := mkItem (name item) (quantity item) q]> (items r) in
          updateItemPrice index (Num q) st
          = set_receipt (mkReceipt its (tax r) (spec_total its (tax r))) st))
  ∧ updateTax NaN st = st
  ∧ (∀ q, q < 0 → updateTax (Num q) st = st)
  ∧ (∀ q, 0 ≤ q →
       updateTax (Num q) st
       = set_receipt (mkReceipt (items r) q (spec_total (items r) q)) st).
Proof.
  intros Hr. split; [|split; [|split]].
  - intros index item Hitem.
    unfold updateItemQuantity, updateItemPrice, parseFloat_String.
    rewrite Hr, Hitem. cbn [isNaN negb andb].
    split; [done|]. split; [|split; [|split; [done|split]]].
    + intros q Hq. rewrite gtb_Num, bool_decide_eq_false_2; [done|].
      by apply Qcle_not_lt.
    + intros q Hq. rewrite gtb_Num, (bool_decide_eq_true_2 _ Hq).
      apply recalculateTotal_set_receipt.
    + intros q Hq. rewrite geb_Num, bool_decide_eq_false_2; [done|].
      by apply Qclt_not_le.
    + intros q Hq. rewrite geb_Num, (bool_decide_eq_true_2 _ Hq).
      apply recalculateTotal_set_receipt.
  - unfold updateTax. by rewrite Hr.
  - intros q Hq. unfold updateTax, parseFloat_String. rewrite Hr.
    cbn [isNaN negb andb]. rewrite geb_Num, bool_decide_eq_false_2; [done|].
    by apply Qclt_not_le.
  - intros q Hq. unfold updateTax, parseFloat_String. rewrite Hr.
    cbn [isNaN negb andb]. rewrite geb_Num, (bool_decide_eq_true_2 _ Hq).
    apply recalculateTotal_set_receipt.
Qed.

(** C8 on the receipt of scenario B: a rejected and an accepted edit of
    each field. *)
Lemma C8_witness_scenarioB :
  updateItemQuantity 0 NaN scenarioB = scenarioB
  ∧ updateItemQuantity 0 (Num 0) scenarioB = scenarioB
  ∧ updateItemPrice 0 (Num (- qz 1)) scenarioB = scenarioB
  ∧ updateTax NaN scenarioB = scenarioB
  ∧ updateTax (Num (qz 7)) scenarioB
    = set_receipt (mkReceipt (items receiptB) (qz 7) (spec_total (items receiptB) (qz 7)))
                  scenarioB.
Proof.
  destruct (C8_setters_reject_or_recompute scenarioB receiptB eq_refl)
    as (Hitem & HtaxNaN & _ & Htax).
  destruct (Hitem 0%nat (mkItem [] 1 (qz 100)) eq_refl)
    as (HqNaN & Hq0 & _ & _ & Hpneg & _).
  split; [exact HqNaN|]. split; [by apply Hq0|].
  split; [by apply Hpneg|]. split; [exact HtaxNaN|]. by apply Htax.
Defined.

(** ** Removing a participant *)

Section Removal.

Lemma indexBefore_ne k j : indexBefore k j ≠ k.
Proof. unfold indexBefore. case_decide; lia. Qed.

Lemma indexBefore_inj k : Inj (=) (=) (indexBefore k).
Proof. intros i j. unfold indexBefore. repeat case_decide; lia. Qed.

Lemma indexBefore_after k j : j ≠ k → indexBefore k (indexAfterRemoval k j) = j.
Proof. unfold indexBefore, indexAfterRemoval. repeat case_decide; lia. Qed.

Lemma indexBefore_surj k p : p ≠ k → ∃ j, indexBefore k j = p.
Proof. exists (indexAfterRemoval k p). by apply indexBefore_after. Qed.

(** The inner loop, over any list of keys. *)
Lemma foldl_reindexStep_lookup k (m acc : gmap nat Qc) (keys : list nat) j :
  foldl (reindexStep k m) acc keys !! j
  = if decide (indexBefore k j ∈ keys ∧ is_Some (m !! indexBefore k j))
    then m !! indexBefore k j else acc !! j.
Proof.
  revert acc. induction keys as [|p keys IH]; intros acc; cbn [foldl].
  - rewrite decide_False; [done|]. intros [[]%elem_of_nil _].
  - rewrite IH. destruct (decide (indexBefore k j ∈ keys ∧ _)) as [[Hin Hs]|Hn].
    + rewrite decide_True; [done|]. split; [by right | done].
    + unfold reindexStep. destruct (decide (p = indexBefore k j)) as [->|Hne].
      * rewrite bool_decide_eq_true_2 by apply indexBefore_ne.
        destruct (m !! indexBefore k j) as [q|] eqn:Hq.
        -- rewrite decide_True by (split; [by left | done]).
           replace (if bool_decide (k < indexBefore k j)%nat
                    then (indexBefore k j - 1)%nat else indexBefore k j)
             with j; [by rewrite lookup_insert_eq|].
           unfold indexBefore. case_decide; case_bool_decide; lia.
        -- rewrite decide_False; [done|]. by intros [_ [? ?]].
      * rewrite decide_False.
        2:{ intros [[?|?]%elem_of_cons ?]; [congruence | by apply Hn]. }
        case_bool_decide as Hpk; [|done].
        destruct (m !! p); [|done].
        rewrite lookup_insert_ne; [done|].
        intros <-. apply Hne. unfold indexBefore.
        case_bool_decide; case_decide; lia.
Qed.

Lemma reindexAssignments_lookup k (m : gmap nat Qc) j :
  reindexAssignments k m !! j = m !! indexBefore k j.
Proof.
  unfold reindexAssignments. rewrite foldl_reindexStep_lookup, lookup_empty.
  case_decide as H; [done|].
  destruct (m !! indexBefore k j) eqn:Hq; [|done].
  exfalso. apply H. split; [|done]. apply Object_keys_elem. by rewrite Hq.
Qed.

Lemma spec_reindex_list_lookup k (l : list (nat * Qc)) j :
  (list_to_map (omap (spec_reindexEntry k) l) : gmap nat Qc) !! j
  = (list_to_map l : gmap nat Qc) !! indexBefore k j.
Proof.
  induction l as [|[p q] l IH]; [done|].
  cbn [omap list_omap]. unfold spec_reindexEntry at 1. cbn [fst snd].
  rewrite list_to_map_cons.
  destruct (decide (p = k)) as [->|Hpk].
  - fold (omap (spec_reindexEntry k) l).
    rewrite lookup_insert_ne by (symmetry; apply indexBefore_ne). apply IH.
  - destruct (decide (p = indexBefore k j)) as [->|Hne].
    + rewrite lookup_insert_eq.
      replace (if decide (k < indexBefore k j)%nat
               then Some ((indexBefore k j - 1)%nat, q) else Some (indexBefore k j, q))
        with (Some (j, q)).
      * fold (omap (spec_reindexEntry k) l).
        by rewrite list_to_map_cons, lookup_insert_eq.
      * unfold indexBefore in *. repeat case_decide; f_equal; f_equal; lia.
    + rewrite lookup_insert_ne by done. rewrite <- IH.
      case_decide.
      * fold (omap (spec_reindexEntry k) l).
        rewrite list_to_map_cons, lookup_insert_ne; [done|].
        intros <-. apply Hne. unfold indexBefore. case_decide; lia.
      * fold (omap (spec_reindexEntry k) l).
        rewrite list_to_map_cons, lookup_insert_ne; [done|].
        intros <-. apply Hne. unfold indexBefore. case_decide; lia.
Qed.

Lemma spec_withoutShares_lookup k (m : gmap nat Qc) j :
  spec_withoutShares k m !! j = m !! indexBefore k j.
Proof.
  unfold spec_withoutShares.
  by rewrite spec_reindex_list_lookup, list_to_map_to_list.
Qed.

(** The loop of the code builds the record the spec describes. *)
Lemma reindexAssignments_spec k (m : gmap nat Qc) :
  reindexAssignments k m = spec_withoutShares k m.
Proof.
  apply map_eq. intros j.
  by rewrite reindexAssignments_lookup, spec_withoutShares_lookup.
Qed.

(** The outer loop, over any duplicate-free list of item keys. *)
Lemma foldl_reindexItemStep_lookup k (ia : ItemAssignments) (keys : list nat) i :
  NoDup keys →
  foldl (reindexItemStep k) ia keys !! i
  = if decide (i ∈ keys) then reindexAssignments k <$> ia !! i else ia !! i.
Proof.
  revert ia. induction keys as [|p keys IH]; intros ia Hnd; cbn [foldl].
  - rewrite decide_False; [done | apply not_elem_of_nil].
  - apply NoDup_cons in Hnd as [Hp Hnd]. rewrite IH by done.
    unfold reindexItemStep.
    destruct (decide (i ∈ keys)) as [Hin|Hnin].
    + rewrite decide_True by (by right).
      assert (p ≠ i) by (by intros ->).
      destruct (ia !! p); [by rewrite lookup_insert_ne|done].
    + destruct (decide (p = i)) as [->|Hne].
      * rewrite decide_True by (by left).
        destruct (ia !! i) as [m|] eqn:Hi; [by rewrite lookup_insert_eq|].
        by rewrite Hi.
      * rewrite decide_False by (intros [?|?]%elem_of_cons; [congruence|done]).
        destruct (ia !! p); [by rewrite lookup_insert_ne|done].
Qed.

Lemma removeParticipant_itemAssignments k (ia : ItemAssignments) :
  foldl (reindexItemStep k) ia (Object_keys ia) = reindexAssignments k <$> ia.
Proof.
  apply map_eq. intros i.
  rewrite foldl_reindexItemStep_lookup by apply Object_keys_NoDup.
  rewrite lookup_fmap. case_decide as Hin; [done|].
  destruct (ia !! i) eqn:Hi; [|done].
  exfalso. apply Hin, Object_keys_elem. by rewrite Hi.
Qed.

Lemma removeParticipant_spec k st :
  (1 < length (participants st))%nat →
  removeParticipant k st = spec_neverHadParticipant k st.
Proof.
  intros Hlen. unfold removeParticipant, spec_neverHadParticipant, splice1.
  rewrite bool_decide_eq_true_2 by done.
  rewrite removeParticipant_itemAssignments, <- delete_take_drop.
  f_equal. apply map_fmap_ext. intros i m _. apply reindexAssignments_spec.
Qed.

End Removal.

Section RemovalTotals.

(** Renaming the keys of a record does not change the sum of its values. *)
Lemma totalAssignedQty_rename (g : nat → nat) `{!Inj (=) (=) g} (m1 m2 : gmap nat Qc) :
  (∀ j, m1 !! j = m2 !! g j) →
  (∀ p, is_Some (m2 !! p) → ∃ j, g j = p) →
  totalAssignedQty m1 = totalAssignedQty m2.
Proof.
  revert m2. induction m1 as [|i x m1 Hi IH] using map_ind; intros m2 Hlk Hsurj.
  - replace m2 with (∅ : gmap nat Qc); [done|].
    symmetry. apply map_empty. intros p.
    destruct (m2 !! p) eqn:Hp; [|done].
    destruct (Hsurj p) as [j <-]; [by rewrite Hp|].
    by rewrite <- Hlk, lookup_empty in Hp.
  - assert (m2 !! g i = Some x) as Hx by (by rewrite <- Hlk, lookup_insert_eq).
    rewrite totalAssignedQty_insert by done.
    rewrite (totalAssignedQty_delete m2 (g i) x) by done. f_equal.
    apply IH.
    + intros j. destruct (decide (j = i)) as [->|Hne].
      * by rewrite Hi, lookup_delete_eq.
      * rewrite lookup_delete_ne by (intros ?%(inj g); congruence).
        by rewrite <- Hlk, lookup_insert_ne.
    + intros p [y Hy]. destruct (decide (p = g i)) as [->|Hne].
      * by rewrite lookup_delete_eq in Hy.
      * rewrite lookup_delete_ne in Hy by done. apply Hsurj. by exists y.
Qed.

Lemma totalAssignedQty_reindex k (m : gmap nat Qc) :
  totalAssignedQty (reindexAssignments k m) = totalAssignedQty (delete k m).
Proof.
  apply (totalAssignedQty_rename (indexBefore k) (Inj0 := indexBefore_inj k)).
  - intros j. rewrite reindexAssignments_lookup.
    by rewrite lookup_delete_ne by (symmetry; apply indexBefore_ne).
  - intros p [y Hy]. apply indexBefore_surj. intros ->.
    by rewrite lookup_delete_eq in Hy.
Qed.

Lemma default_fmap_item (f : gmap nat Qc → gmap nat Qc) (ia : ItemAssignments) i :
  f ∅ = ∅ → default ∅ ((f <$> ia) !! i) = f (default ∅ (ia !! i)).
Proof. intros Hf. rewrite lookup_fmap. by destruct (ia !! i). Qed.

Lemma reindexAssignments_empty k : reindexAssignments k ∅ = ∅.
Proof. apply map_eq. intros j. by rewrite reindexAssignments_lookup, !lookup_empty. Qed.

Lemma itemShareCost_removed ia k j i item :
  j ≠ k →
  itemShareCost (reindexAssignments k <$> ia) (indexAfterRemoval k j) i item
  = itemShareCost (delete k <$> ia) j i item.
Proof.
  intros Hjk. unfold itemShareCost, itemCost.
  rewrite (default_fmap_item (reindexAssignments k))
    by apply reindexAssignments_empty.
  rewrite (default_fmap_item (delete k)) by apply delete_empty.
  rewrite reindexAssignments_lookup, indexBefore_after by done.
  rewrite totalAssignedQty_reindex.
  by rewrite lookup_delete_ne by done.
Qed.

Lemma previewEntry_removed r ia k j nm :
  j ≠ k →
  previewEntry r (reindexAssignments k <$> ia) (indexAfterRemoval k j) nm
  = previewEntry r (delete k <$> ia) j nm.
Proof.
  intros Hjk. unfold previewEntry.
  assert (previewItemsTotal r (reindexAssignments k <$> ia) (indexAfterRemoval k j)
          = previewItemsTotal r (delete k <$> ia) j) as ->; [|done].
  unfold previewItemsTotal. rewrite !foldl_previewStep_sum. f_equal.
  apply sum_fmap_ext. intros [i item] _. by apply itemShareCost_removed.
Qed.

Lemma delete_lookup_after (ps : list jsString) k j nm :
  ps !! j = Some nm → j ≠ k → delete k ps !! indexAfterRemoval k j = Some nm.
Proof.
  intros Hj Hjk. unfold indexAfterRemoval. case_decide.
  - rewrite list_lookup_delete_ge by lia.
    by replace (S (j - 1)) with j by lia.
  - by rewrite list_lookup_delete_lt by lia.
Qed.

End RemovalTotals.

(** C9. With at least two participants, removing participant [k] leaves
    exactly the state in which participant [k] and their assignment entries
    never existed (entries of [k] dropped, higher indices shifted down by one,
    lower ones unchanged), so the preview and the settlement computed after
    the removal are those computed on that state; and every remaining
    participant, found at their shifted index, gets the preview entry computed
    from the original map with the entries of [k] erased. *)
Theorem C9_remove_participant_as_if_never_there (st : State) (k : nat) :
  (2 ≤ length (participants st))%nat →
  removeParticipant k st = spec_neverHadParticipant k st
  ∧ participantTotals (removeParticipant k st)
    = participantTotals (spec_neverHadParticipant k st)
  ∧ splitResults (calculateSplit (removeParticipant k st))
    = splitResults (calculateSplit (spec_neverHadParticipant k st))
  ∧ ∀ r j nm, receipt st = Some r → participants st !! j = Some nm → j ≠ k →
      participantTotals (removeParticipant k st) !! indexAfterRemoval k j
      = Some (previewEntry r (delete k <$> itemAssignments st) j nm).
Proof.
  intros Hlen.
  assert (removeParticipant k st = spec_neverHadParticipant k st) as Heq
    by (apply removeParticipant_spec; lia).
  split; [done|]. split; [by rewrite Heq|]. split; [by rewrite Heq|].
  intros r j nm Hr Hj Hjk. unfold removeParticipant, splice1.
  rewrite bool_decide_eq_true_2 by lia.
  rewrite removeParticipant_itemAssignments, <- delete_take_drop.
  unfold participantTotals. cbn [receipt participants itemAssignments
    set_itemAssignments set_participants].
  rewrite Hr, list_lookup_imap, (delete_lookup_after _ k j nm) by done.
  cbn [fmap option_fmap option_map]. f_equal. by apply previewEntry_removed.
Qed.

(** C9 at three participants, removing Alice: Bob and Carol move down. *)
Lemma C9_witness_remove_first :
  removeParticipant 0 scenarioUneven = spec_neverHadParticipant 0 scenarioUneven
  ∧ participantTotals (removeParticipant 0 scenarioUneven)
    = participantTotals (spec_neverHadParticipant 0 scenarioUneven).
Proof.
  destruct (C9_remove_participant_as_if_never_there scenarioUneven 0)
    as (H1 & H2 & _).
  - simpl. lia.
  - by split.
Defined.

(** C10. With exactly one participant in the list, [removeParticipant] does
    nothing, whatever the index: the list and the assignment map stay as
    they are. *)
Theorem C10_last_participant_stays (st : State) (index : nat) :
  length (participants st) = 1%nat → removeParticipant index st = st.
Proof.
  intros Hlen. unfold removeParticipant.
  rewrite bool_decide_eq_false_2; [done | lia].
Qed.

(** C10 at a list with the single participant Alice. *)
Lemma C10_witness_single_participant :
  removeParticipant 0 scenarioAlone = scenarioAlone.
Proof. by apply C10_last_participant_stays. Defined.


(** * Further properties of the page *)

(** ** Removing and adding items *)

Section Items.

(** The loop of [removeItem], over any list of keys. *)
Lemma foldl_removeItemStep_lookup k (ia acc : ItemAssignments) (keys : list nat) j :
  foldl (removeItemStep k ia) acc keys !! j
  = if decide (indexBefore k j ∈ keys ∧ is_Some (ia !! indexBefore k j))
    then ia !! indexBefore k j else acc !! j.
Proof.
  revert acc. induction keys as [|i keys IH]; intros acc; cbn [foldl].
  - rewrite decide_False; [done|]. intros [[]%elem_of_nil _].
  - rewrite IH. destruct (decide (indexBefore k j ∈ keys ∧ _)) as [[Hin Hs]|Hn].
    + rewrite decide_True; [done|]. split; [by right | done].
    + unfold removeItemStep. destruct (decide (i = indexBefore k j)) as [->|Hne].
      * destruct (ia !! indexBefore k j) as [m|] eqn:Hm.
        -- rewrite decide_True by (split; [by left | done]).
           unfold indexBefore in *. case_decide.
           ++ rewrite bool_decide_eq_true_2 by done. by rewrite lookup_insert_eq.
           ++ rewrite bool_decide_eq_false_2 by lia.
              rewrite bool_decide_eq_true_2 by lia.
              replace (S j - 1)%nat with j by lia. by rewrite lookup_insert_eq.
        -- rewrite decide_False by (by intros [_ [? ?]]).
           by repeat case_bool_decide.
      * rewrite decide_False.
        2:{ intros [[?|?]%elem_of_cons ?]; [congruence | by apply Hn]. }
        assert (∀ m : gmap nat Qc,
                  (i < k)%nat → <[i := m]> acc !! j = acc !! j) as Hlt.
        { intros m Hik. apply lookup_insert_ne. intros <-. apply Hne.
          unfold indexBefore. case_decide; lia. }
        assert (∀ m : gmap nat Qc,
                  (k < i)%nat → <[(i - 1)%nat := m]> acc !! j = acc !! j) as Hgt.
        { intros m Hik. apply lookup_insert_ne. intros <-. apply Hne.
          unfold indexBefore. case_decide; lia. }
        repeat case_bool_decide; destruct (ia !! i); auto.
Qed.

Lemma removeItem_assignments_lookup k (ia : ItemAssignments) j :
  foldl (removeItemStep k ia) ∅ (Object_keys ia) !! j = ia !! indexBefore k j.
Proof.
  rewrite foldl_removeItemStep_lookup, lookup_empty.
  case_decide as H; [done|].
  destruct (ia !! indexBefore k j) eqn:Hq; [|done].
  exfalso. apply H. split; [|done]. apply Object_keys_elem. by rewrite Hq.
Qed.

Lemma list_delete_lookup_before {A} (l : list A) k j :
  delete k l !! j = l !! indexBefore k j.
Proof.
  unfold indexBefore. case_decide.
  - by apply list_lookup_delete_lt.
  - apply list_lookup_delete_ge. lia.
Qed.

End Items.

Section ItemSums.

(** A sum over the indexed items, as a sum over the indices. *)
Lemma sum_imap_pair {A} (f : nat → A → Qc) (l : list A) :
  JS.sum ((λ e, f e.1 e.2) <$> imap pair l)
  = JS.sum ((λ i, from_option (f i) 0 (l !! i)) <$> seq 0 (length l)).
Proof.
  revert f. induction l as [|x l IH]; intros f; [done|].
  rewrite imap_cons. cbn [length seq]. rewrite !fmap_cons, !sum_cons. f_equal.
  transitivity (JS.sum ((λ e, f (S e.1) e.2) <$> imap pair l)).
  - f_equal. rewrite !fmap_imap. by apply imap_ext.
  - rewrite (IH (λ i, f (S i))), <- fmap_S_seq, <- list_fmap_compose. done.
Qed.

Lemma previewItemsTotal_seq r ia p :
  previewItemsTotal r ia p
  = JS.sum ((λ i, from_option (itemShareCost ia p i) 0 (items r !! i))
              <$> seq 0 (length (items r))).
Proof.
  unfold previewItemsTotal.
  rewrite foldl_previewStep_sum, (sum_imap_pair (itemShareCost ia p)). ring.
Qed.

(** The cost of an item depends on the assignment map through the record of
    that item only. *)
Lemma itemShareCost_ext ia1 ia2 p i1 i2 item :
  ia1 !! i1 = ia2 !! i2 → itemShareCost ia1 p i1 item = itemShareCost ia2 p i2 item.
Proof. intros H. unfold itemShareCost. by rewrite H. Qed.

Lemma seq_without k n :
  (k < n)%nat → seq 0 n ≡ₚ k :: (indexBefore k <$> seq 0 (n - 1)).
Proof.
  intros Hk.
  assert (indexBefore k <$> seq 0 k = seq 0 k) as E1.
  { apply list_eq. intros i. rewrite list_lookup_fmap.
    destruct (seq 0 k !! i) as [x|] eqn:Hx; [|done]. simpl.
    apply lookup_seq in Hx as [-> ?]. unfold indexBefore.
    by rewrite decide_True by lia. }
  assert (indexBefore k <$> seq k (n - 1 - k) = seq (S k) (n - 1 - k)) as E2.
  { rewrite <- fmap_S_seq. apply list_eq. intros i. rewrite !list_lookup_fmap.
    destruct (seq k (n - 1 - k) !! i) as [x|] eqn:Hx; [|done]. simpl.
    apply lookup_seq in Hx as [-> ?]. unfold indexBefore.
    by rewrite decide_False by lia. }
  replace n with (k + S (n - 1 - k))%nat at 1 by lia.
  replace (n - 1)%nat with (k + (n - 1 - k))%nat at 2 by lia.
  rewrite !seq_app, fmap_app, E1. cbn [seq plus]. rewrite E2.
  by rewrite <- Permutation_middle.
Qed.

(** Summing over the indices that remain after index [k] is taken out. *)
Lemma sum_without (h : nat → Qc) (k n : nat) :
  ((n ≤ k)%nat → h k = 0) →
  JS.sum ((λ j, h (indexBefore k j)) <$> seq 0 (n - (if decide (k < n)%nat then 1 else 0)))
  = JS.sum (h <$> seq 0 n) - h k.
Proof.
  intros Hout. case_decide as Hk.
  - rewrite (sum_perm (h <$> seq 0 n) (h <$> (k :: (indexBefore k <$> seq 0 (n - 1)))))
      by (by rewrite <- seq_without).
    rewrite fmap_cons, sum_cons, <- list_fmap_compose. unfold compose. ring.
  - rewrite Hout by lia. replace (n - 0)%nat with n by lia.
    replace (JS.sum (h <$> seq 0 n) - 0) with (JS.sum (h <$> seq 0 n)) by ring.
    apply sum_fmap_ext. intros j [_ Hj]%elem_of_seq. unfold indexBefore.
    by rewrite decide_True by lia.
Qed.

End ItemSums.

Section ItemEdits.

Lemma removeItem_unfold st r k :
  receipt st = Some r → (2 ≤ length (items r))%nat →
  removeItem k st
  = set_receipt
      (mkReceipt (delete k (items r)) (tax r) (spec_total (delete k (items r)) (tax r)))
      (set_itemAssignments
         (foldl (removeItemStep k (itemAssignments st)) ∅
                (Object_keys (itemAssignments st))) st).
Proof.
  intros Hr Hlen. unfold removeItem. rewrite Hr.
  rewrite bool_decide_eq_true_2 by lia.
  unfold recalculateTotal, set_itemAssignments, set_receipt, splice1. cbn.
  by rewrite subtotalOf_spec_total, <- delete_take_drop.
Qed.

Lemma spec_total_snoc its item tx :
  spec_total (its ++ [item]) tx = spec_total its tx + quantity item * price item.
Proof.
  unfold spec_total. rewrite fmap_app, sum_app. cbn [fmap list_fmap].
  rewrite sum_cons, sum_nil. ring.
Qed.

Lemma subtotalOf_snoc its item :
  subtotalOf (its ++ [item]) = subtotalOf its + price item * quantity item.
Proof. unfold subtotalOf. by rewrite foldl_snoc. Qed.

Lemma previewItemsTotal_addNewItem r ia p tx tot :
  previewItemsTotal
    (mkReceipt (items r ++ [mkItem [] 1 0]) tx tot)
    (<[(length (items r ++ [mkItem [] 1 0]) - 1)%nat := ∅]> ia) p
  = previewItemsTotal r ia p.
Proof.
  unfold previewItemsTotal. cbn [items].
  rewrite imap_app, foldl_app. cbn [imap foldl].
  rewrite previewStep_cost, itemShareCost_free by (cbn; ring).
  rewrite !foldl_previewStep_sum.
  rewrite (sum_fmap_ext _ (λ e, itemShareCost ia p e.1 e.2)); [ring|].
  intros [i item] Hin%imap_pair_elem. cbn [fst snd] in *.
  apply itemShareCost_ext, lookup_insert_ne.
  apply lookup_lt_Some in Hin. rewrite length_app. cbn. lia.
Qed.

End ItemEdits.

(** X1. With at least two items, [removeItem] takes item [k] out of the
    list, sets [total] to the sum of the remaining lines plus the tax, and
    re-keys the assignment map: the record found under [j] afterwards is the
    one that was stored under [j] when [j < k] and under [j + 1] otherwise, so
    the record of the removed item is gone. The participants stay. *)
Theorem X1_removeItem_rekeys_assignments (st : State) (r : Receipt) (k : nat) :
  receipt st = Some r → (2 ≤ length (items r))%nat →
  receipt (removeItem k st)
  = Some (mkReceipt (delete k (items r)) (tax r)
                    (spec_total (delete k (items r)) (tax r)))
  ∧ (∀ j, itemAssignments (removeItem k st) !! j
          = itemAssignments st !! indexBefore k j)
  ∧ (∀ j p, shareOf (itemAssignments (removeItem k st)) j p
            = shareOf (itemAssignments st) (indexBefore k j) p)
  ∧ participants (removeItem k st) = participants st.
Proof.
  intros Hr Hlen. rewrite (removeItem_unfold st r k Hr Hlen).
  cbn [receipt itemAssignments participants set_receipt set_itemAssignments].
  split; [done|]. split; [apply removeItem_assignments_lookup|].
  split; [|done]. intros j p. unfold shareOf.
  by rewrite removeItem_assignments_lookup.
Qed.

Lemma X1_witness_two_items :
  receipt (removeItem 0 scenarioTwoItems)
  = Some (mkReceipt (delete 0%nat (items receiptTwoItems)) (tax receiptTwoItems)
                    (spec_total (delete 0%nat (items receiptTwoItems))
                                (tax receiptTwoItems)))
  ∧ shareOf (itemAssignments (removeItem 0 scenarioTwoItems)) 0 0 = Some 1.
Proof.
  destruct (X1_removeItem_rekeys_assignments scenarioTwoItems receiptTwoItems 0 eq_refl)
    as (Hr & _ & Hs & _).
  - simpl. lia.
  - split; [exact Hr|]. rewrite Hs. reflexivity.
Defined.

(** X2. [removeItem] never empties the receipt: from a receipt with at least
    one item it leaves at least one, whatever the index; with exactly one item
    it changes nothing. *)
Theorem X2_removeItem_keeps_an_item (st : State) (r : Receipt) (k : nat) :
  receipt st = Some r → items r ≠ [] →
  (∃ r', receipt (removeItem k st) = Some r' ∧ items r' ≠ [])
  ∧ (length (items r) = 1%nat → removeItem k st = st).
Proof.
  intros Hr Hne. split.
  - destruct (decide (2 ≤ length (items r))%nat) as [Hlen|Hlen].
    + rewrite (removeItem_unfold st r k Hr Hlen). eexists. split; [done|]. cbn [items].
      intros E. apply (f_equal length) in E. cbn in E.
      destruct (decide (k < length (items r))%nat).
      * rewrite length_delete in E by (by apply lookup_lt_is_Some_2). lia.
      * rewrite delete_take_drop, take_ge, drop_ge, app_nil_r in E by lia. lia.
    + exists r. split; [|done]. unfold removeItem.
      by rewrite Hr, bool_decide_eq_false_2 by lia.
  - intros Hone. unfold removeItem. by rewrite Hr, bool_decide_eq_false_2 by lia.
Qed.

Lemma X2_witness_single_item :
  (∃ r', receipt (removeItem 0 scenarioB) = Some r' ∧ items r' ≠ [])
  ∧ removeItem 0 scenarioB = scenarioB.
Proof.
  destruct (X2_removeItem_keeps_an_item scenarioB receiptB 0 eq_refl) as [H1 H2].
  - done.
  - split; [exact H1 | by apply H2].
Defined.

(** X3. Removing an item changes no other line of anybody's bill: after
    [removeItem k], the preview's [itemsTotal] of every participant slot is
    what it was, less what that slot was charged for item [k]. *)
Theorem X3_removeItem_keeps_other_costs (st : State) (r : Receipt) (k : nat) :
  receipt st = Some r → (2 ≤ length (items r))%nat →
  ∀ p e e',
    participantTotals st !! p = Some e →
    participantTotals (removeItem k st) !! p = Some e' →
    pt_itemsTotal e'
    = pt_itemsTotal e - from_option (itemShareCost (itemAssignments st) p k) 0
                                    (items r !! k).
Proof.
  intros Hr Hlen p e e' He He'.
  unfold participantTotals in He, He'.
  rewrite (removeItem_unfold st r k Hr Hlen) in He'.
  cbn [receipt itemAssignments participants set_receipt set_itemAssignments] in He'.
  rewrite Hr in He. rewrite list_lookup_imap in He, He'.
  destruct (participants st !! p) as [nm|]; [|done].
  injection He as <-. injection He' as <-.
  cbn [pt_itemsTotal previewEntry]. rewrite !previewItemsTotal_seq. cbn [items].
  set (h := λ i, from_option (itemShareCost (itemAssignments st) p i) 0 (items r !! i)).
  change (from_option (itemShareCost (itemAssignments st) p k) 0 (items r !! k))
    with (h k).
  assert (length (delete k (items r))
          = (length (items r) - (if decide (k < length (items r))%nat then 1 else 0))%nat)
    as ->.
  { case_decide.
    - by rewrite length_delete by (by apply lookup_lt_is_Some_2).
    - rewrite delete_take_drop, take_ge, drop_ge, app_nil_r by lia. lia. }
  rewrite <- (sum_without h k (length (items r))).
  - apply sum_fmap_ext. intros j _. unfold h.
    rewrite list_delete_lookup_before.
    destruct (items r !! indexBefore k j); [|done]. cbn.
    apply itemShareCost_ext, removeItem_assignments_lookup.
  - intros Hout. unfold h. by rewrite lookup_ge_None_2.
Qed.

Lemma X3_witness_two_items :
  ∃ e e',
    participantTotals scenarioTwoItems !! 0%nat = Some e
    ∧ participantTotals (removeItem 0 scenarioTwoItems) !! 0%nat = Some e'
    ∧ pt_itemsTotal e'
      = pt_itemsTotal e
        - from_option (itemShareCost (itemAssignments scenarioTwoItems) 0 0) 0
                      (items receiptTwoItems !! 0%nat).
Proof.
  assert (is_Some (participantTotals scenarioTwoItems !! 0%nat)) as [e He]
    by (apply lookup_lt_is_Some_2; vm_compute; lia).
  assert (is_Some (participantTotals (removeItem 0 scenarioTwoItems) !! 0%nat))
    as [e' He'] by (apply lookup_lt_is_Some_2; vm_compute; lia).
  exists e, e'. split; [exact He|]. split; [exact He'|].
  apply (X3_removeItem_keeps_other_costs scenarioTwoItems receiptTwoItems 0 eq_refl)
    with (p := 0%nat); [simpl; lia | exact He | exact He'].
Defined.

(** X4. [addNewItem] appends the blank line [{name: '', quantity: 1,
    price: 0}] and gives it an empty record; it does not touch [total], which
    stays consistent when it was, and the preview of every participant is
    unchanged. *)
Theorem X4_addNewItem_is_neutral (st : State) (r : Receipt) :
  receipt st = Some r →
  receipt (addNewItem st)
  = Some (mkReceipt (items r ++ [mkItem [] 1 0]) (tax r) (total r))
  ∧ itemAssignments (addNewItem st) !! length (items r) = Some ∅
  ∧ participantTotals (addNewItem st) = participantTotals st
  ∧ (totalConsistent st → totalConsistent (addNewItem st)).
Proof.
  intros Hr. unfold addNewItem, participantTotals, totalConsistent. rewrite Hr.
  cbn [receipt itemAssignments participants set_receipt set_itemAssignments].
  split; [done|]. split; [|split].
  - rewrite length_app. cbn. replace (length (items r) + 1 - 1)%nat
      with (length (items r)) by lia. apply lookup_insert_eq.
  - apply imap_ext. intros p nm _. unfold previewEntry.
    rewrite previewItemsTotal_addNewItem. cbn [items tax].
    rewrite subtotalOf_snoc. cbn [price quantity].
    replace (subtotalOf (items r) + 0 * 1) with (subtotalOf (items r)) by ring.
    done.
  - cbn [items tax total]. intros ->. rewrite spec_total_snoc. cbn. ring.
Qed.

Lemma X4_witness_scenarioB :
  participantTotals (addNewItem scenarioB) = participantTotals scenarioB.
Proof.
  by destruct (X4_addNewItem_is_neutral scenarioB receiptB eq_refl) as (_ & _ & H & _).
Defined.


(** ** The settlement, line by line *)

Section SettlementLines.

Context (ia : ItemAssignments) (pIndex : nat).

(** The lines pushed by the loop carry exactly what is added to the running
    total. *)
Lemma foldl_splitStep_lines l acc its :
  (foldl (splitStep ia pIndex) (acc, its) l).1
  - JS.sum (ri_cost <$> (foldl (splitStep ia pIndex) (acc, its) l).2)
  = acc - JS.sum (ri_cost <$> its).
Proof.
  revert acc its. induction l as [|[i item] l IH]; intros acc its; [done|].
  cbn [foldl]. unfold splitStep at 2 4. cbn [fst snd].
  case_bool_decide; [|apply IH].
  rewrite IH, fmap_app, sum_app. cbn [fmap list_fmap ri_cost].
  rewrite sum_cons, sum_nil. ring.
Qed.

Lemma foldl_splitStep_Forall (P : ResultItem → Prop) l acc its :
  Forall P its →
  (∀ i item, (i, item) ∈ l →
     0 < orZero (default ∅ (ia !! i) !! pIndex) →
     P {| ri_name := (name item, orZero (default ∅ (ia !! i) !! pIndex));
          ri_cost := itemCost (default ∅ (ia !! i))
                              (orZero (default ∅ (ia !! i) !! pIndex)) item;
          ri_sharedWith := length (Object_keys (default ∅ (ia !! i))) |}) →
  Forall P (foldl (splitStep ia pIndex) (acc, its) l).2.
Proof.
  revert acc its. induction l as [|[i item] l IH]; intros acc its Hits Hl; [done|].
  cbn [foldl]. unfold splitStep at 2.
  case_bool_decide as Hq.
  - apply IH.
    + apply Forall_app. split; [done|]. apply Forall_singleton.
      apply Hl; [by left | done].
    + intros i' item' Hin. apply Hl. by right.
  - apply IH; [done|]. intros i' item' Hin. apply Hl. by right.
Qed.

End SettlementLines.

Lemma splitEntry_items r ia p nm :
  pr_items (splitEntry r ia p nm)
  = (foldl (splitStep ia p) (0, []) (imap pair (items r))).2.
Proof.
  unfold splitEntry.
  by destruct (foldl (splitStep ia p) (0, []) (imap pair (items r))).
Qed.

(** X5. The lines of a settlement entry are its audit trail: their costs add
    up to the participant's unrounded [itemsTotal], of which [itemsTotal] is
    the rounding; every line is for a strictly positive claimed quantity, and
    its [sharedWith] is at least 1 (the participant's own key is counted). *)
Theorem X5_settlement_lines_add_up (st : State) (r : Receipt) :
  receipt st = Some r → validParticipantsOf (participants st) ≠ [] →
  ∃ sr, splitResults (calculateSplit st) = Some sr
    ∧ ∀ j e, sr_participants sr !! j = Some e →
        JS.sum (ri_cost <$> pr_items e) = previewItemsTotal r (itemAssignments st) j
        ∧ pr_itemsTotal e = round2 (JS.sum (ri_cost <$> pr_items e))
        ∧ Forall (λ line, 0 < (ri_name line).2 ∧ (1 ≤ ri_sharedWith line)%nat)
                 (pr_items e).
Proof.
  intros Hr Hv. eexists. split; [by apply calculateSplit_results|].
  cbn [sr_participants]. intros j e He. rewrite list_lookup_imap in He.
  destruct (validParticipantsOf (participants st) !! j) as [nm|]; [|done].
  injection He as <-.
  assert (JS.sum (ri_cost <$> pr_items (splitEntry r (itemAssignments st) j nm))
          = previewItemsTotal r (itemAssignments st) j) as Hsum.
  { rewrite splitEntry_items. unfold previewItemsTotal.
    pose proof (foldl_splitStep_lines (itemAssignments st) j
                  (imap pair (items r)) 0 []) as H.
    rewrite foldl_splitStep_fst in H. cbn [fmap list_fmap] in H.
    rewrite sum_nil in H.
    apply (inj (λ x, x - JS.sum (ri_cost <$>
             (foldl (splitStep (itemAssignments st) j) (0, []) (imap pair (items r))).2))).
    rewrite H. ring. }
  split; [done|]. split.
  - rewrite Hsum. by destruct (splitEntry_rounds r (itemAssignments st) j nm) as (_ & ? & _).
  - rewrite splitEntry_items. apply foldl_splitStep_Forall; [done|].
    intros i item _ Hq. cbn [ri_name ri_sharedWith snd]. split; [done|].
    destruct (default ∅ (itemAssignments st !! i) !! j) as [q|] eqn:Hj.
    + assert (j ∈ Object_keys (default ∅ (itemAssignments st !! i))) as Hin
        by (apply Object_keys_elem; by rewrite Hj).
      destruct (Object_keys _); [by apply elem_of_nil in Hin | cbn; lia].
    + cbn in Hq. by apply Qclt_not_eq in Hq.
Qed.

Lemma X5_witness_scenarioD :
  ∃ sr, splitResults (calculateSplit scenarioD) = Some sr
    ∧ ∀ j e, sr_participants sr !! j = Some e →
        pr_itemsTotal e = round2 (JS.sum (ri_cost <$> pr_items e)).
Proof.
  destruct (X5_settlement_lines_add_up scenarioD _ eq_refl) as (sr & Hsr & H).
  - by vm_compute.
  - exists sr. split; [exact Hsr|]. intros j e He. by destruct (H j e He) as (_ & ? & _).
Defined.

(** ** What the participants are charged in total *)

Section Charges.

Lemma sum_fmap_le {A} (f g : A → Qc) (l : list A) :
  (∀ a, a ∈ l → f a ≤ g a) → JS.sum (f <$> l) ≤ JS.sum (g <$> l).
Proof.
  induction l as [|a l IH]; intros Hle; csimpl.
  - apply Qcle_refl.
  - rewrite !sum_cons. apply Qcplus_le_compat.
    + apply Hle. by left.
    + apply IH. intros b Hb. apply Hle. by right.
Qed.

Lemma sum_fmap_nonneg {A} (f : A → Qc) (l : list A) :
  (∀ a, a ∈ l → 0 ≤ f a) → 0 ≤ JS.sum (f <$> l).
Proof.
  intros Hf. rewrite <- (sum_fmap_zero (λ _ : A, 0) l) by done.
  by apply sum_fmap_le.
Qed.

(** A non-negative function that vanishes outside [k] sums to no more over
    any duplicate-free list than over [k]. *)
Lemma sum_le_support (f : nat → Qc) (l k : list nat) :
  NoDup l → NoDup k → (∀ x, 0 ≤ f x) → (∀ x, x ∉ k → f x = 0) →
  JS.sum (f <$> l) ≤ JS.sum (f <$> k).
Proof.
  intros Hl Hk Hpos Hz.
  rewrite (sum_perm (f <$> l) (f <$> (filter (.∈ k) l ++ filter (λ x, ¬ x ∈ k) l)))
    by (by rewrite filter_app_complement).
  rewrite fmap_app, sum_app.
  rewrite (sum_fmap_zero f (filter (λ x, ¬ x ∈ k) l)).
  2:{ intros x [Hx _]%list_elem_of_filter. by apply Hz. }
  destruct (submseteq_Permutation (filter (.∈ k) l) k) as [k' Hp].
  { apply NoDup_submseteq; [by apply NoDup_filter|].
    by intros x [Hx _]%list_elem_of_filter. }
  rewrite (sum_perm (f <$> k) (f <$> (filter (.∈ k) l ++ k'))) by (by rewrite <- Hp).
  rewrite fmap_app, sum_app.
  apply Qcplus_le_compat; [apply Qcle_refl|].
  apply sum_fmap_nonneg. auto.
Qed.

Lemma itemShareCost_no_total ia p i item :
  ¬ 0 < totalAssignedQty (default ∅ (ia !! i)) → itemShareCost ia p i item = 0.
Proof.
  intros HT. unfold itemShareCost, itemCost.
  rewrite (bool_decide_eq_false_2 _ HT). by case_bool_decide.
Qed.

Lemma Qcdiv_nonneg a b : 0 ≤ a → 0 < b → 0 ≤ a / b.
Proof.
  intros Ha Hb. unfold Qcdiv. apply Qcmult_nonneg_nonneg; [done|].
  apply Qclt_le_weak. by apply Qcinv_pos.
Qed.

Lemma itemShareCost_nonneg ia p i item :
  0 ≤ price item * quantity item → nonNegativeShares ia i →
  0 ≤ itemShareCost ia p i item.
Proof.
  intros HL Hnn.
  destruct (decide (0 < totalAssignedQty (default ∅ (ia !! i)))) as [HT|HT].
  - destruct (default ∅ (ia !! i) !! p) as [q|] eqn:Hp.
    + rewrite (itemShareCost_stored ia p i item q) by (done || by apply (Hnn p q)).
      apply Qcmult_nonneg_nonneg; [by apply (Hnn p q)|]. by apply Qcdiv_nonneg.
    + by rewrite itemShareCost_absent.
  - by rewrite itemShareCost_no_total.
Qed.

(** Over the slots of any participant list, an item is charged at most its
    line total. *)
Lemma sum_slots_itemShareCost_le ia n i item :
  0 ≤ price item * quantity item → nonNegativeShares ia i →
  JS.sum ((λ p, itemShareCost ia p i item) <$> seq 0 n) ≤ price item * quantity item.
Proof.
  intros HL Hnn.
  destruct (decide (0 < totalAssignedQty (default ∅ (ia !! i)))) as [HT|HT].
  - rewrite <- (sum_itemShareCost_keys ia i item Hnn HT).
    apply sum_le_support.
    + apply NoDup_seq.
    + apply Object_keys_NoDup.
    + intros p. by apply itemShareCost_nonneg.
    + intros p Hp. apply itemShareCost_absent.
      rewrite Object_keys_elem in Hp. by apply eq_None_not_Some.
  - rewrite sum_fmap_zero; [done|]. intros p _. by apply itemShareCost_no_total.
Qed.

Lemma previewItemsTotal_nonneg r ia p :
  Forall (λ item, 0 ≤ price item * quantity item) (items r) →
  (∀ i, nonNegativeShares ia i) →
  0 ≤ previewItemsTotal r ia p.
Proof.
  intros HL Hnn. unfold previewItemsTotal. rewrite foldl_previewStep_sum.
  rewrite Qcplus_0_l. apply sum_fmap_nonneg.
  intros [i item] Hin%imap_pair_elem. cbn [fst snd] in *.
  apply itemShareCost_nonneg; [|done].
  rewrite Forall_forall in HL. apply HL. by eapply list_elem_of_lookup_2.
Qed.

Lemma sum_previewItemsTotal_le r ia n :
  Forall (λ item, 0 ≤ price item * quantity item) (items r) →
  (∀ i, nonNegativeShares ia i) →
  JS.sum (previewItemsTotal r ia <$> seq 0 n) ≤ subtotalOf (items r).
Proof.
  intros HL Hnn. unfold previewItemsTotal.
  rewrite (sum_fmap_ext _
    (λ p, JS.sum ((λ e, itemShareCost ia p e.1 e.2) <$> imap pair (items r)))).
  2:{ intros p _. rewrite foldl_previewStep_sum. ring. }
  rewrite (sum_exchange (λ p e, itemShareCost ia p e.1 e.2)).
  rewrite subtotalOf_sum.
  rewrite <- (imap_pair_snd (items r)) at 2.
  rewrite <- list_fmap_compose. apply sum_fmap_le.
  intros [i item] Hin%imap_pair_elem. cbn [fst snd compose] in *.
  apply sum_slots_itemShareCost_le; [|done].
  rewrite Forall_forall in HL. apply HL. by eapply list_elem_of_lookup_2.
Qed.

Lemma subtotalOf_nonneg its :
  Forall (λ item, 0 ≤ price item * quantity item) its → 0 ≤ subtotalOf its.
Proof.
  intros HL. rewrite subtotalOf_sum. apply sum_fmap_nonneg.
  by apply Forall_forall.
Qed.

Lemma taxPortionOf_nonneg s t r :
  0 ≤ t → 0 ≤ tax r → 0 ≤ taxPortionOf s t r.
Proof.
  intros Ht Htax. unfold taxPortionOf. case_bool_decide; [|done].
  rewrite orZeroNum_id. apply Qcmult_nonneg_nonneg; [|done]. by apply Qcdiv_nonneg.
Qed.

Lemma participantTotals_totals st r :
  receipt st = Some r →
  pt_total <$> participantTotals st
  = (λ p, previewItemsTotal r (itemAssignments st) p
          + taxPortionOf (subtotalOf (items r))
                         (previewItemsTotal r (itemAssignments st) p) r)
      <$> seq 0 (length (participants st)).
Proof.
  intros Hr. unfold participantTotals. rewrite Hr, fmap_imap.
  rewrite <- imap_seq_0. by apply imap_ext.
Qed.

(** The tax portions over the slots, for a positive subtotal. *)
Lemma sum_taxPortions r ia n :
  0 < subtotalOf (items r) →
  JS.sum ((λ p, taxPortionOf (subtotalOf (items r)) (previewItemsTotal r ia p) r)
            <$> seq 0 n)
  = JS.sum (previewItemsTotal r ia <$> seq 0 n) * (tax r / subtotalOf (items r)).
Proof.
  intros HS.
  assert (subtotalOf (items r) ≠ 0) as HS0
    by (intros E; rewrite E in HS; by apply Qclt_not_eq in HS).
  rewrite <- sum_fmap_scale. apply sum_fmap_ext. intros p _.
  unfold taxPortionOf. rewrite (bool_decide_eq_true_2 _ HS), orZeroNum_id. by field.
Qed.

End Charges.

Section Conservation.

Lemma allSharesNonNegative_item ia i :
  allSharesNonNegative ia → nonNegativeShares ia i.
Proof.
  intros Hall. unfold nonNegativeShares.
  destruct (ia !! i) as [m|] eqn:Hi; cbn.
  - by apply (Hall i m).
  - apply map_Forall_empty.
Qed.

End Conservation.

(** X6. When the subtotal is strictly positive and every item that costs
    something is claimed within the participant list, the preview hands out
    the whole bill: the [itemsTotal]s add up to the subtotal and the [total]s
    to subtotal plus tax. *)
Theorem X6_preview_totals_add_up_to_the_bill (st : State) (r : Receipt) :
  receipt st = Some r →
  0 < subtotalOf (items r) →
  fullyClaimed (items r) (length (participants st)) (itemAssignments st) →
  JS.sum (pt_itemsTotal <$> participantTotals st) = subtotalOf (items r)
  ∧ JS.sum (pt_total <$> participantTotals st) = subtotalOf (items r) + tax r.
Proof.
  intros Hr HS Hfull.
  rewrite (participantTotals_itemsTotals st r Hr), (participantTotals_totals st r Hr).
  rewrite (sum_fmap_plus (previewItemsTotal r (itemAssignments st))).
  rewrite sum_taxPortions, sum_previewItemsTotal by done.
  split; [done|]. field.
  intros E; rewrite E in HS; by apply Qclt_not_eq in HS.
Qed.

Lemma X6_witness_scenarioB :
  JS.sum (pt_itemsTotal <$> participantTotals scenarioB) = subtotalOf (items receiptB)
  ∧ JS.sum (pt_total <$> participantTotals scenarioB)
    = subtotalOf (items receiptB) + tax receiptB.
Proof.
  apply (X6_preview_totals_add_up_to_the_bill scenarioB receiptB eq_refl).
  - by vm_compute.
  - apply (bool_decide_unpack _). by vm_compute.
Defined.

(** X7. The preview never charges more than the bill. When no line total,
    tax or stored share is negative, every participant's [itemsTotal],
    [taxPortion] and [total] is non-negative, the [itemsTotal]s add up to at
    most the subtotal, the tax portions to at most the tax, and the totals to
    at most subtotal plus tax, whatever is or is not assigned. *)
Theorem X7_preview_never_overcharges (st : State) (r : Receipt) :
  receipt st = Some r →
  nonNegativeReceipt r →
  allSharesNonNegative (itemAssignments st) →
  Forall (λ e, 0 ≤ pt_itemsTotal e ∧ 0 ≤ pt_taxPortion e ∧ 0 ≤ pt_total e)
         (participantTotals st)
  ∧ JS.sum (pt_itemsTotal <$> participantTotals st) ≤ subtotalOf (items r)
  ∧ JS.sum (pt_taxPortion <$> participantTotals st) ≤ tax r
  ∧ JS.sum (pt_total <$> participantTotals st) ≤ subtotalOf (items r) + tax r.
Proof.
  intros Hr [HL Htax] Hall.
  pose proof (λ i, allSharesNonNegative_item _ i Hall) as Hnn.
  assert (JS.sum (previewItemsTotal r (itemAssignments st)
                    <$> seq 0 (length (participants st)))
          ≤ subtotalOf (items r)) as Hitems by (by apply sum_previewItemsTotal_le).
  assert (JS.sum ((λ p, taxPortionOf (subtotalOf (items r))
                          (previewItemsTotal r (itemAssignments st) p) r)
                    <$> seq 0 (length (participants st)))
          ≤ tax r) as Htaxes.
  { destruct (decide (0 < subtotalOf (items r))) as [HS|HS].
    - rewrite sum_taxPortions by done.
      assert (subtotalOf (items r) ≠ 0) as HS0
        by (intros E; rewrite E in HS; by apply Qclt_not_eq in HS).
      replace (tax r) with (subtotalOf (items r) * (tax r / subtotalOf (items r)))
        at 2 by (by field).
      apply Qcmult_le_mono_nonneg_r; [by apply Qcdiv_nonneg | done].
    - rewrite sum_fmap_zero; [done|]. intros p _. by apply taxPortionOf_nonpositive. }
  split; [|split; [|split]].
  - unfold participantTotals. rewrite Hr. apply Forall_forall.
    intros e (p & nm & -> & _)%elem_of_lookup_imap_1.
    cbn [previewEntry pt_itemsTotal pt_taxPortion pt_total].
    pose proof (previewItemsTotal_nonneg r (itemAssignments st) p HL Hnn) as H0.
    pose proof (taxPortionOf_nonneg (subtotalOf (items r)) _ r H0 Htax) as H1.
    split; [done|]. split; [done|]. by apply Qcplus_nonneg_nonneg.
  - by rewrite (participantTotals_itemsTotals st r Hr).
  - by rewrite (participantTotals_taxPortions st r Hr).
  - rewrite (participantTotals_totals st r Hr).
    rewrite (sum_fmap_plus (previewItemsTotal r (itemAssignments st))).
    by apply Qcplus_le_compat.
Qed.

Lemma X7_witness_scenarioUneven :
  JS.sum (pt_total <$> participantTotals scenarioUneven)
  ≤ subtotalOf [threeUnits] + qz 3.
Proof.
  apply (X7_preview_never_overcharges scenarioUneven _ eq_refl).
  - split; [|by vm_compute]. apply (bool_decide_unpack _). by vm_compute.
  - apply (bool_decide_unpack _). by vm_compute.
Defined.

(** ** How far rounding can move the split total *)

Section Drift.

Lemma halfCent_eq : Q2Qc (1 # 2) * / Qc_of_Z 100 = halfCent.
Proof. apply (bool_decide_eq_true_1 _). by vm_compute. Qed.

Lemma hundred_pos : 0 < Qc_of_Z 100.
Proof. by vm_compute. Qed.

(** Rounding to cents moves a value by at most half a cent. *)
Lemma round2_bounds x : x - halfCent ≤ round2 x ∧ round2 x ≤ x + halfCent.
Proof.
  destruct (Math_round_bounds (x * Qc_of_Z 100)) as (z & Hz & Hlo & Hhi).
  unfold round2. rewrite Hz. unfold Qcdiv.
  pose proof hundred_pos as Hc.
  assert (Qc_of_Z 100 ≠ 0) as Hc0
    by (intros E; rewrite E in Hc; by apply Qclt_not_eq in Hc).
  assert (0 ≤ / Qc_of_Z 100) as Hinv by (apply Qclt_le_weak; by apply Qcinv_pos).
  split.
  - replace (x - halfCent)
      with ((x * Qc_of_Z 100 - Q2Qc (1 # 2)) * / Qc_of_Z 100)
      by (rewrite <- halfCent_eq; by field).
    apply Qcmult_le_mono_nonneg_r; [done | by apply Qclt_le_weak].
  - replace (x + halfCent)
      with ((x * Qc_of_Z 100 + Q2Qc (1 # 2)) * / Qc_of_Z 100)
      by (rewrite <- halfCent_eq; by field).
    by apply Qcmult_le_mono_nonneg_r.
Qed.

Lemma ofNat_S n : ofNat (S n) = ofNat n + 1.
Proof.
  unfold ofNat. rewrite Nat2Z.inj_succ, <- Z.add_1_r.
  apply Qc_is_canon. unfold Qcplus, Q2Qc. cbn [this Qc_of_Z].
  rewrite !Qred_correct, inject_Z_plus. reflexivity.
Qed.

Lemma sum_round2_bounds (l : list Qc) :
  JS.sum l - ofNat (length l) * halfCent ≤ JS.sum (round2 <$> l)
  ∧ JS.sum (round2 <$> l) ≤ JS.sum l + ofNat (length l) * halfCent.
Proof.
  induction l as [|x l [IHlo IHhi]].
  - cbn. split; apply (bool_decide_unpack _); by vm_compute.
  - cbn [length]. rewrite fmap_cons, !sum_cons, ofNat_S.
    destruct (round2_bounds x) as [Hlo Hhi]. split.
    + replace (x + JS.sum l - (ofNat (length l) + 1) * halfCent)
        with ((x - halfCent) + (JS.sum l - ofNat (length l) * halfCent)) by ring.
      by apply Qcplus_le_compat.
    + replace (x + JS.sum l + (ofNat (length l) + 1) * halfCent)
        with ((x + halfCent) + (JS.sum l + ofNat (length l) * halfCent)) by ring.
      by apply Qcplus_le_compat.
Qed.

Lemma Qc_abs_le x b : - b ≤ x → x ≤ b → Qc_abs x ≤ b.
Proof.
  intros Hlo Hhi. unfold Qc_abs. case_bool_decide; [|done].
  rewrite <- (Qcopp_involutive b). by apply Qcopp_le_compat.
Qed.

(** The unrounded total of the participant at position [p] of the
    settlement. *)
Lemma settlement_totals r ia (valid : list jsString) :
  pr_total <$> imap (splitEntry r ia) valid
  = round2 <$> ((λ p, previewItemsTotal r ia p
                      + taxPortionOf (subtotalOf (items r)) (previewItemsTotal r ia p) r)
                  <$> seq 0 (length valid)).
Proof.
  rewrite fmap_imap, <- list_fmap_compose, <- imap_seq_0.
  apply imap_ext. intros p nm _. cbn.
  by destruct (splitEntry_rounds r ia p nm) as (_ & _ & _ & ->).
Qed.

Lemma splitTotal_drift r ia (valid : list jsString) :
  let raw := JS.sum ((λ p, previewItemsTotal r ia p
                           + taxPortionOf (subtotalOf (items r))
                                          (previewItemsTotal r ia p) r)
                       <$> seq 0 (length valid)) in
  raw - ofNat (length valid) * halfCent
  ≤ JS.sum (pr_total <$> imap (splitEntry r ia) valid)
  ∧ JS.sum (pr_total <$> imap (splitEntry r ia) valid)
    ≤ raw + ofNat (length valid) * halfCent.
Proof.
  intros raw. rewrite settlement_totals.
  pose proof (sum_round2_bounds
    ((λ p, previewItemsTotal r ia p
           + taxPortionOf (subtotalOf (items r)) (previewItemsTotal r ia p) r)
       <$> seq 0 (length valid))) as H.
  by rewrite length_fmap, length_seq in H.
Qed.

Lemma raw_totals_fully_claimed r ia n :
  0 < subtotalOf (items r) → fullyClaimed (items r) n ia →
  JS.sum ((λ p, previewItemsTotal r ia p
                + taxPortionOf (subtotalOf (items r)) (previewItemsTotal r ia p) r)
            <$> seq 0 n)
  = spec_total (items r) (tax r).
Proof.
  intros HS Hfull.
  rewrite (sum_fmap_plus (previewItemsTotal r ia)).
  rewrite sum_taxPortions, sum_previewItemsTotal by done.
  rewrite <- subtotalOf_spec_total, orZeroNum_id. field.
  intros E; rewrite E in HS; by apply Qclt_not_eq in HS.
Qed.

Lemma originalTotal_drift r ia (valid : list jsString) :
  0 < subtotalOf (items r) → fullyClaimed (items r) (length valid) ia →
  total r = spec_total (items r) (tax r) →
  Qc_abs (total r - JS.sum (pr_total <$> imap (splitEntry r ia) valid))
  ≤ ofNat (length valid) * halfCent.
Proof.
  intros HS Hfull Htot.
  destruct (splitTotal_drift r ia valid) as [Hlo Hhi]. cbn zeta in *.
  rewrite raw_totals_fully_claimed in Hlo, Hhi by done. rewrite Htot.
  set (T := spec_total (items r) (tax r)) in *.
  set (s := JS.sum (pr_total <$> imap (splitEntry r ia) valid)) in *.
  set (b := ofNat (length valid) * halfCent) in *.
  apply Qc_abs_le.
  - apply (Qcplus_le_mono_r _ _ (s + b)).
    replace (- b + (s + b)) with s by ring.
    by replace (T - s + (s + b)) with (T + b) by ring.
  - apply (Qcplus_le_mono_r _ _ (s - b)).
    replace (T - s + (s - b)) with (T - b) by ring.
    by replace (b + (s - b)) with s by ring.
Qed.

End Drift.

(** X8. Rounding moves the split total by at most half a cent per settled
    participant: [splitTotal] lies within [n * 0.005] of the sum of the
    unrounded totals of the [n] participants of the settlement; and when the
    subtotal is positive, every priced item is claimed within those [n]
    positions and the stored total is consistent with items and tax,
    [|originalTotal - splitTotal| <= n * 0.005]. *)
Theorem X8_rounding_drift_is_bounded (st : State) (r : Receipt) :
  receipt st = Some r → validParticipantsOf (participants st) ≠ [] →
  ∃ sr, splitResults (calculateSplit st) = Some sr
    ∧ let n := length (validParticipantsOf (participants st)) in
      let raw := JS.sum ((λ p, previewItemsTotal r (itemAssignments st) p
                               + taxPortionOf (subtotalOf (items r))
                                   (previewItemsTotal r (itemAssignments st) p) r)
                           <$> seq 0 n) in
      raw - ofNat n * halfCent ≤ sr_splitTotal sr
      ∧ sr_splitTotal sr ≤ raw + ofNat n * halfCent
      ∧ (0 < subtotalOf (items r) →
         fullyClaimed (items r) n (itemAssignments st) →
         totalConsistent st →
         Qc_abs (sr_originalTotal sr - sr_splitTotal sr) ≤ ofNat n * halfCent).
Proof.
  intros Hr Hv. eexists. split; [by apply calculateSplit_results|].
  cbn [sr_splitTotal sr_originalTotal].
  destruct (splitTotal_drift r (itemAssignments st)
              (validParticipantsOf (participants st))) as [Hlo Hhi].
  split; [exact Hlo|]. split; [exact Hhi|].
  intros HS Hfull Hcons. unfold totalConsistent in Hcons. rewrite Hr in Hcons.
  by apply originalTotal_drift.
Qed.

Lemma X8_witness_scenarioD :
  ∃ sr, splitResults (calculateSplit scenarioD) = Some sr
    ∧ Qc_abs (sr_originalTotal sr - sr_splitTotal sr) ≤ ofNat 3 * halfCent.
Proof.
  destruct (X8_rounding_drift_is_bounded scenarioD _ eq_refl) as (sr & Hsr & _ & _ & H).
  - by vm_compute.
  - exists sr. split; [exact Hsr|]. apply H.
    + by vm_compute.
    + apply (bool_decide_unpack _). by vm_compute.
    + apply (bool_decide_eq_true_1 _). by vm_compute.
Defined.

(** X9. With a single named participant who is at the first position of the
    settlement and holds every priced item, and a stored total consistent with
    items and tax, the results step shows the split as accurate:
    [|originalTotal - splitTotal| < 0.01]. *)
Theorem X9_single_claimant_is_accurate (st : State) (r : Receipt) (nm : jsString) :
  receipt st = Some r →
  validParticipantsOf (participants st) = [nm] →
  0 < subtotalOf (items r) →
  fullyClaimed (items r) 1 (itemAssignments st) →
  totalConsistent st →
  ∃ sr, splitResults (calculateSplit st) = Some sr ∧ accuracyPerfect sr = true.
Proof.
  intros Hr Hv HS Hfull Hcons.
  eexists. split; [apply calculateSplit_results; [done | by rewrite Hv]|].
  unfold accuracyPerfect. cbn [sr_splitTotal sr_originalTotal].
  rewrite !orZeroNum_id. apply bool_decide_eq_true_2.
  unfold totalConsistent in Hcons. rewrite Hr in Hcons.
  eapply Qcle_lt_trans.
  - apply originalTotal_drift; [done | by rewrite Hv | done].
  - rewrite Hv. by vm_compute.
Qed.

Lemma X9_witness_scenarioB :
  ∃ sr, splitResults (calculateSplit scenarioB) = Some sr ∧ accuracyPerfect sr = true.
Proof.
  apply (X9_single_claimant_is_accurate scenarioB receiptB Alice eq_refl).
  - by vm_compute.
  - by vm_compute.
  - apply (bool_decide_unpack _). by vm_compute.
  - apply (bool_decide_eq_true_1 _). by vm_compute.
Defined.

(** X10. [calculateSplit] recomputes from scratch and touches nothing it
    reads: it leaves receipt, participants, assignment map and selection as
    they are, and running it a second time gives the same state as running it
    once. *)
Theorem X10_calculateSplit_is_idempotent (st : State) :
  receipt (calculateSplit st) = receipt st
  ∧ participants (calculateSplit st) = participants st
  ∧ itemAssignments (calculateSplit st) = itemAssignments st
  ∧ selectedParticipantIndex (calculateSplit st) = selectedParticipantIndex st
  ∧ calculateSplit (calculateSplit st) = calculateSplit st.
Proof.
  unfold calculateSplit. destruct (receipt st) as [r|] eqn:Hr.
  - case_bool_decide as Hv.
    + cbn. rewrite Hr. cbn. by rewrite bool_decide_eq_true_2.
    + cbn. rewrite Hr. cbn. by rewrite bool_decide_eq_false_2.
  - by rewrite Hr.
Qed.


(** ** One pair at a time *)

Section Pairs.

Lemma shareOf_insert_ne ia i i' (m : gmap nat Qc) p :
  i ≠ i' → shareOf (<[i := m]> ia) i' p = shareOf ia i' p.
Proof. intros Hne. unfold shareOf. by rewrite lookup_insert_ne. Qed.

Lemma shareOf_ensureItem ia i i' p :
  shareOf (ensureItem i ia) i' p = shareOf ia i' p.
Proof.
  unfold ensureItem. destruct (ia !! i) eqn:Hi; [done|].
  destruct (decide (i = i')) as [<-|Hne].
  - unfold shareOf. by rewrite lookup_insert_eq, Hi.
  - by apply shareOf_insert_ne.
Qed.

Lemma shareOf_default ia i p : default ∅ (ia !! i) !! p = shareOf ia i p.
Proof. unfold shareOf. by destruct (ia !! i). Qed.

Lemma increase_itemAssignments i p st :
  itemAssignments (increaseItemQuantity i p st)
  = <[i := <[p := orZero (shareOf (itemAssignments st) i p) + 1]>
             (default ∅ (itemAssignments st !! i))]> (itemAssignments st).
Proof.
  unfold increaseItemQuantity, ensureItem. cbn [itemAssignments set_itemAssignments].
  rewrite <- shareOf_default.
  destruct (itemAssignments st !! i) as [m|] eqn:Hi.
  - by rewrite Hi.
  - rewrite lookup_insert_eq. cbn. by rewrite insert_insert_eq.
Qed.

Lemma increase_shareOf i p st :
  shareOf (itemAssignments (increaseItemQuantity i p st)) i p
  = Some (orZero (shareOf (itemAssignments st) i p) + 1).
Proof. by rewrite increase_itemAssignments, shareOf_insert_eq, lookup_insert_eq. Qed.

Lemma increase_shareOf_other i p st i' p' :
  (i', p') ≠ (i, p) →
  shareOf (itemAssignments (increaseItemQuantity i p st)) i' p'
  = shareOf (itemAssignments st) i' p'.
Proof.
  intros Hne. rewrite increase_itemAssignments.
  destruct (decide (i' = i)) as [->|Hi].
  - rewrite shareOf_insert_eq, lookup_insert_ne by congruence. apply shareOf_default.
  - by apply shareOf_insert_ne.
Qed.

Lemma decrease_shareOf_other i p st i' p' :
  (i', p') ≠ (i, p) →
  shareOf (itemAssignments (decreaseItemQuantity i p st)) i' p'
  = shareOf (itemAssignments st) i' p'.
Proof.
  intros Hne. unfold decreaseItemQuantity.
  destruct (itemAssignments st !! i) as [m|] eqn:Hi; [|done].
  assert (∀ m' : gmap nat Qc, (i' = i → m' !! p' = m !! p') →
            shareOf (<[i := m']> (itemAssignments st)) i' p'
            = shareOf (itemAssignments st) i' p') as Hupd.
  { intros m' Hm'. destruct (decide (i' = i)) as [->|Hne'].
    - rewrite shareOf_insert_eq, Hm' by done. unfold shareOf. by rewrite Hi.
    - by apply shareOf_insert_ne. }
  repeat case_bool_decide; cbn [itemAssignments set_itemAssignments]; [| |done].
  - apply Hupd. intros ->. apply lookup_insert_ne. congruence.
  - apply Hupd. intros ->. apply lookup_delete_ne. congruence.
Qed.

Lemma removeAssignment_shareOf_other i p st i' p' :
  (i', p') ≠ (i, p) →
  shareOf (itemAssignments (removeAssignment i p st)) i' p'
  = shareOf (itemAssignments st) i' p'.
Proof.
  intros Hne. unfold removeAssignment.
  destruct (itemAssignments st !! i) as [m|] eqn:Hi; [|done].
  cbn [itemAssignments set_itemAssignments].
  destruct (decide (i' = i)) as [->|Hne'].
  - rewrite shareOf_insert_eq, lookup_delete_ne by congruence.
    unfold shareOf. by rewrite Hi.
  - by apply shareOf_insert_ne.
Qed.

Lemma assign_shareOf_other i p st i' p' :
  selectedParticipantIndex st = Some p → (i', p') ≠ (i, p) →
  shareOf (itemAssignments (assignItemToSelected i st)) i' p'
  = shareOf (itemAssignments st) i' p'.
Proof.
  intros Hsel Hne. unfold assignItemToSelected. rewrite Hsel.
  destruct (falsy _); cbn [itemAssignments set_itemAssignments].
  - destruct (decide (i' = i)) as [->|Hne'].
    + rewrite shareOf_insert_eq, lookup_insert_ne by congruence.
      rewrite shareOf_default. apply shareOf_ensureItem.
    + rewrite shareOf_insert_ne by done. apply shareOf_ensureItem.
  - apply shareOf_ensureItem.
Qed.

End Pairs.

(** X11. The four mutations of the assignment map work on one pair: assign
    (for the selected participant), increase, decrease and unassign leave the
    share of every other (item, participant) pair as it was. *)
Theorem X11_mutations_touch_one_pair (st : State) (i p i' p' : nat) :
  (i', p') ≠ (i, p) →
  shareOf (itemAssignments (increaseItemQuantity i p st)) i' p'
  = shareOf (itemAssignments st) i' p'
  ∧ shareOf (itemAssignments (decreaseItemQuantity i p st)) i' p'
    = shareOf (itemAssignments st) i' p'
  ∧ shareOf (itemAssignments (removeAssignment i p st)) i' p'
    = shareOf (itemAssignments st) i' p'
  ∧ shareOf (itemAssignments (assignItemToSelected i (selectParticipant p st))) i' p'
    = shareOf (itemAssignments st) i' p'.
Proof.
  intros Hne. split; [|split; [|split]].
  - by apply increase_shareOf_other.
  - by apply decrease_shareOf_other.
  - by apply removeAssignment_shareOf_other.
  - by rewrite (assign_shareOf_other i p (selectParticipant p st) i' p').
Qed.

Lemma X11_witness_uneven_shares :
  shareOf (itemAssignments (increaseItemQuantity 0 0 scenarioUneven)) 0 1
  = shareOf (itemAssignments scenarioUneven) 0 1
  ∧ shareOf (itemAssignments (removeAssignment 0 0 scenarioUneven)) 0 1
    = shareOf (itemAssignments scenarioUneven) 0 1.
Proof.
  destruct (X11_mutations_touch_one_pair scenarioUneven 0 0 0 1) as (H1 & _ & H3 & _).
  - congruence.
  - by split.
Defined.

Section RoundTrip.

Lemma decrease_shareOf i p st c :
  shareOf (itemAssignments st) i p = Some c →
  shareOf (itemAssignments (decreaseItemQuantity i p st)) i p
  = if bool_decide (1 < c) then Some (c - 1)
    else if bool_decide (c = 1) then None else Some c.
Proof.
  intros Hc. pose proof Hc as (m & Hi & Hp)%shareOf_Some.
  unfold decreaseItemQuantity. rewrite Hi, Hp, orZero_Some.
  repeat case_bool_decide; cbn [itemAssignments set_itemAssignments]; [| |done].
  - by rewrite shareOf_insert_eq, lookup_insert_eq.
  - by rewrite shareOf_insert_eq, lookup_delete_eq.
Qed.

(** The preview reads the assignment map through the shares of the pairs
    only. *)
Lemma participantTotals_ext st st' :
  receipt st' = receipt st → participants st' = participants st →
  (∀ i p, shareOf (itemAssignments st') i p = shareOf (itemAssignments st) i p) →
  participantTotals st' = participantTotals st.
Proof.
  intros Hr Hp Hs. unfold participantTotals. rewrite Hr, Hp.
  destruct (receipt st) as [r|]; [|done].
  apply imap_ext. intros p nm _. unfold previewEntry.
  assert (previewItemsTotal r (itemAssignments st') p
          = previewItemsTotal r (itemAssignments st) p) as ->; [|done].
  unfold previewItemsTotal. rewrite !foldl_previewStep_sum. f_equal.
  apply sum_fmap_ext. intros [i item] _. cbn [fst snd]. unfold itemShareCost.
  assert (default ∅ (itemAssignments st' !! i) = default ∅ (itemAssignments st !! i))
    as ->; [|done].
  apply map_eq. intros p'. by rewrite !shareOf_default.
Qed.

End RoundTrip.

(** X12. Increase followed by decrease on the same pair is a round trip
    when the pair is unassigned or holds a strictly positive share: every
    share, and with it the preview of every participant, is as before. *)
Theorem X12_increase_then_decrease_restores (st : State) (i p : nat) :
  from_option (λ q, 0 < q) True (shareOf (itemAssignments st) i p) →
  (∀ i' p',
     shareOf (itemAssignments (decreaseItemQuantity i p (increaseItemQuantity i p st)))
             i' p'
     = shareOf (itemAssignments st) i' p')
  ∧ participantTotals (decreaseItemQuantity i p (increaseItemQuantity i p st))
    = participantTotals st.
Proof.
  intros Hq.
  assert (∀ i' p',
     shareOf (itemAssignments (decreaseItemQuantity i p (increaseItemQuantity i p st)))
             i' p'
     = shareOf (itemAssignments st) i' p') as Hshares.
  { intros i' p'. destruct (decide ((i', p') = (i, p))) as [[= -> ->]|Hne].
    - rewrite (decrease_shareOf i p _ _ (increase_shareOf i p st)).
      destruct (shareOf (itemAssignments st) i p) as [q|]; cbn in *.
      + rewrite orZeroNum_id.
        rewrite bool_decide_eq_true_2.
        * f_equal. ring.
        * apply (Qcplus_lt_mono_r 0 q 1) in Hq. by rewrite Qcplus_0_l in Hq.
      + rewrite bool_decide_eq_false_2 by (by vm_compute).
        by rewrite bool_decide_eq_true_2 by ring.
    - rewrite decrease_shareOf_other by done. by apply increase_shareOf_other. }
  split; [done|].
  apply participantTotals_ext; [| |done].
  - unfold decreaseItemQuantity, increaseItemQuantity.
    destruct (_ !! i); repeat case_bool_decide; done.
  - unfold decreaseItemQuantity, increaseItemQuantity.
    destruct (_ !! i); repeat case_bool_decide; done.
Qed.

Lemma X12_witness_uneven_shares :
  participantTotals (decreaseItemQuantity 0 2 (increaseItemQuantity 0 2 scenarioUneven))
  = participantTotals scenarioUneven
  ∧ participantTotals (decreaseItemQuantity 0 1 (increaseItemQuantity 0 1 scenarioUneven))
    = participantTotals scenarioUneven.
Proof.
  split.
  - apply (X12_increase_then_decrease_restores scenarioUneven 0 2).
    by vm_compute.
  - apply (X12_increase_then_decrease_restores scenarioUneven 0 1).
    by vm_compute.
Defined.

(** ** Claiming one more unit *)

Section OneMoreUnit.

Lemma totalAssignedQty_nonneg (m : gmap nat Qc) :
  map_Forall (λ (_ : nat) (q : Qc), 0 ≤ q) m → 0 ≤ totalAssignedQty m.
Proof.
  intros Hm. unfold totalAssignedQty, Object_values. apply sum_fmap_nonneg.
  intros [p q] Hin%elem_of_map_to_list. by apply (Hm p q).
Qed.

Lemma totalAssignedQty_split (m : gmap nat Qc) p :
  totalAssignedQty m = orZero (m !! p) + totalAssignedQty (delete p m).
Proof.
  destruct (m !! p) as [q|] eqn:Hp.
  - rewrite orZero_Some. by apply totalAssignedQty_delete.
  - rewrite delete_id by done. cbn. ring.
Qed.

Lemma totalAssignedQty_increase (m : gmap nat Qc) p :
  totalAssignedQty (<[p := orZero (m !! p) + 1]> m) = totalAssignedQty m + 1.
Proof.
  rewrite <- insert_delete_eq, totalAssignedQty_insert by apply lookup_delete_eq.
  rewrite (totalAssignedQty_split m p). ring.
Qed.

Lemma share_le_total (m : gmap nat Qc) p :
  map_Forall (λ (_ : nat) (q : Qc), 0 ≤ q) m →
  0 ≤ orZero (m !! p) ∧ orZero (m !! p) ≤ totalAssignedQty m.
Proof.
  intros Hm. split.
  - destruct (m !! p) as [q|] eqn:Hp; [|done]. rewrite orZero_Some. by apply (Hm p q).
  - rewrite (totalAssignedQty_split m p).
    rewrite <- (Qcplus_0_r (orZero (m !! p))) at 1.
    apply Qcplus_le_compat; [apply Qcle_refl|].
    apply totalAssignedQty_nonneg. by apply map_Forall_delete.
Qed.

Lemma Qcle_from_difference a b : 0 ≤ b - a → a ≤ b.
Proof. intros H. by apply Qcle_minus_iff. Qed.

Lemma pos_ne_0 (x : Qc) : 0 < x → x ≠ 0.
Proof. intros H E. rewrite E in H. by apply Qclt_not_eq in H. Qed.

Lemma plus_one_pos (x : Qc) : 0 ≤ x → 0 < x + 1.
Proof. intros H. by apply Qcplus_nonneg_pos. Qed.

(** The claimant's own fraction does not go down. *)
Lemma own_fraction_grows (q T L : Qc) :
  0 ≤ L → 0 < q → q ≤ T → q / T * L ≤ (q + 1) / (T + 1) * L.
Proof.
  intros HL Hq HqT.
  assert (0 < T) as HT by (by eapply Qclt_le_trans).
  assert (0 < T + 1) as HT1 by (apply plus_one_pos; by apply Qclt_le_weak).
  apply Qcle_from_difference.
  replace ((q + 1) / (T + 1) * L - q / T * L)
    with ((T - q) * L * (/ T * / (T + 1)))
    by (field; split; by apply pos_ne_0).
  apply Qcmult_nonneg_nonneg.
  - apply Qcmult_nonneg_nonneg; [|done].
    by apply (proj1 (Qcle_minus_iff q T)) in HqT.
  - apply Qclt_le_weak, Qcmult_pos_pos; by apply Qcinv_pos.
Qed.

(** Everybody else's fraction does not go up. *)
Lemma other_fraction_shrinks (q T L : Qc) :
  0 ≤ L → 0 < q → q ≤ T → q / (T + 1) * L ≤ q / T * L.
Proof.
  intros HL Hq HqT.
  assert (0 < T) as HT by (by eapply Qclt_le_trans).
  assert (0 < T + 1) as HT1 by (apply plus_one_pos; by apply Qclt_le_weak).
  apply Qcle_from_difference.
  replace (q / T * L - q / (T + 1) * L)
    with (q * L * (/ T * / (T + 1)))
    by (field; split; by apply pos_ne_0).
  apply Qcmult_nonneg_nonneg.
  - apply Qcmult_nonneg_nonneg; [by apply Qclt_le_weak | done].
  - apply Qclt_le_weak, Qcmult_pos_pos; by apply Qcinv_pos.
Qed.

Lemma increase_record i p st :
  default ∅ (itemAssignments (increaseItemQuantity i p st) !! i)
  = <[p := orZero (default ∅ (itemAssignments st !! i) !! p) + 1]>
      (default ∅ (itemAssignments st !! i)).
Proof.
  by rewrite increase_itemAssignments, lookup_insert_eq, shareOf_default.
Qed.

Lemma increase_cost_own i p st item :
  0 ≤ price item * quantity item → nonNegativeShares (itemAssignments st) i →
  itemShareCost (itemAssignments st) p i item
  ≤ itemShareCost (itemAssignments (increaseItemQuantity i p st)) p i item.
Proof.
  intros HL Hnn. unfold itemShareCost, itemCost. rewrite increase_record.
  set (m := default ∅ (itemAssignments st !! i)) in *.
  destruct (share_le_total m p Hnn) as [Hq HqT].
  rewrite lookup_insert_eq, orZero_Some, totalAssignedQty_increase.
  rewrite (bool_decide_eq_true_2 (0 < orZero (m !! p) + 1)) by (by apply plus_one_pos).
  rewrite (bool_decide_eq_true_2 (0 < totalAssignedQty m + 1))
    by (apply plus_one_pos; by etrans).
  assert (0 ≤ (orZero (m !! p) + 1) / (totalAssignedQty m + 1)
              * (price item * quantity item)) as Hnew.
  { apply Qcmult_nonneg_nonneg; [|done]. apply Qcdiv_nonneg.
    - apply Qclt_le_weak. by apply plus_one_pos.
    - apply plus_one_pos. by etrans. }
  case_bool_decide as Hpos; [|done].
  rewrite bool_decide_eq_true_2 by (by eapply Qclt_le_trans).
  by apply own_fraction_grows.
Qed.

Lemma increase_cost_other i p st item p' :
  p' ≠ p →
  0 ≤ price item * quantity item → nonNegativeShares (itemAssignments st) i →
  itemShareCost (itemAssignments (increaseItemQuantity i p st)) p' i item
  ≤ itemShareCost (itemAssignments st) p' i item.
Proof.
  intros Hne HL Hnn. unfold itemShareCost, itemCost. rewrite increase_record.
  set (m := default ∅ (itemAssignments st !! i)) in *.
  destruct (share_le_total m p' Hnn) as [Hq HqT].
  rewrite lookup_insert_ne by done. rewrite totalAssignedQty_increase.
  case_bool_decide as Hpos; [|done].
  assert (0 < totalAssignedQty m) as HT by (by eapply Qclt_le_trans).
  rewrite (bool_decide_eq_true_2 _ HT).
  rewrite bool_decide_eq_true_2 by (apply plus_one_pos; by apply Qclt_le_weak).
  by apply other_fraction_shrinks.
Qed.

Lemma increase_cost_other_item i p st item p' j :
  j ≠ i →
  itemShareCost (itemAssignments (increaseItemQuantity i p st)) p' j item
  = itemShareCost (itemAssignments st) p' j item.
Proof.
  intros Hne. apply itemShareCost_ext.
  rewrite increase_itemAssignments. by apply lookup_insert_ne.
Qed.

End OneMoreUnit.

(** X13. Claiming one more unit of an item never lowers the claimant's own
    [itemsTotal] and never raises anybody else's, as long as the item's line
    total and the shares stored for it are not negative. *)
Theorem X13_increase_shifts_cost_to_claimant (st : State) (r : Receipt) (i p : nat) :
  receipt st = Some r →
  (∀ item, items r !! i = Some item → 0 ≤ price item * quantity item) →
  nonNegativeShares (itemAssignments st) i →
  ∀ p' e e',
    participantTotals st !! p' = Some e →
    participantTotals (increaseItemQuantity i p st) !! p' = Some e' →
    (p' = p → pt_itemsTotal e ≤ pt_itemsTotal e')
    ∧ (p' ≠ p → pt_itemsTotal e' ≤ pt_itemsTotal e).
Proof.
  intros Hr HL Hnn p' e e' He He'.
  remember (increaseItemQuantity i p st) as st' eqn:Est.
  assert (receipt st' = Some r) as Hr' by (by rewrite Est).
  assert (participants st' = participants st) as Hp' by (by rewrite Est).
  unfold participantTotals in He, He'.
  rewrite Hr', Hp', list_lookup_imap in He'. rewrite Hr, list_lookup_imap in He.
  destruct (participants st !! p') as [nm|]; [|done].
  injection He as <-. injection He' as <-.
  cbn [pt_itemsTotal previewEntry]. subst st'.
  rewrite !previewItemsTotal_seq. split.
  - intros ->. apply sum_fmap_le. intros j _.
    destruct (items r !! j) as [item|] eqn:Hj; [|apply Qcle_refl]. cbn [from_option].
    destruct (decide (j = i)) as [->|Hji].
    + apply increase_cost_own; [by apply HL | done].
    + rewrite increase_cost_other_item by done. apply Qcle_refl.
  - intros Hne. apply sum_fmap_le. intros j _.
    destruct (items r !! j) as [item|] eqn:Hj; [|apply Qcle_refl]. cbn [from_option].
    destruct (decide (j = i)) as [->|Hji].
    + apply increase_cost_other; [done | by apply HL | done].
    + rewrite increase_cost_other_item by done. apply Qcle_refl.
Qed.

Lemma X13_witness_uneven_shares :
  ∃ e e',
    participantTotals scenarioUneven !! 0%nat = Some e
    ∧ participantTotals (increaseItemQuantity 0 0 scenarioUneven) !! 0%nat = Some e'
    ∧ pt_itemsTotal e ≤ pt_itemsTotal e'.
Proof.
  assert (is_Some (participantTotals scenarioUneven !! 0%nat)) as [e He]
    by (apply lookup_lt_is_Some_2; vm_compute; lia).
  assert (is_Some (participantTotals (increaseItemQuantity 0 0 scenarioUneven) !! 0%nat))
    as [e' He'] by (apply lookup_lt_is_Some_2; vm_compute; lia).
  exists e, e'. split; [exact He|]. split; [exact He'|].
  refine (proj1 (X13_increase_shifts_cost_to_claimant scenarioUneven _ 0 0 eq_refl
                   _ _ 0%nat e e' He He') eq_refl).
  - intros item. destruct item as [nm q pr]. intros [= <- <- <-]. by vm_compute.
  - apply (bool_decide_unpack _). by vm_compute.
Defined.

(** ** What every action of the page preserves *)

Ltac unfold_action :=
  unfold updateItemName, updateItemQuantity, updateItemPrice, updateTax,
    recalculateTotal, proceedToAssignFromReview, calculateSplit, goToStep,
    setParticipantName, addParticipant, addNewItem, removeItem, receiptParsed,
    resetApp, assignItemToSelected, increaseItemQuantity, decreaseItemQuantity,
    removeAssignment, selectParticipant.

Section Invariants.

(** The setters of the receipt and the navigation do not touch participants
    or assignments. *)
Lemma keeps_itemAssignments st a :
  match a with
  | ActUpdateItemName _ _ | ActUpdateItemQuantity _ _ | ActUpdateItemPrice _ _
  | ActUpdateTax _ | ActProceedToAssignFromReview | ActCalculateSplit
  | ActGoToStep _ | ActSetParticipantName _ _ | ActAddParticipant =>
      itemAssignments (perform st a) = itemAssignments st
  | _ => True
  end.
Proof.
  destruct a; cbn [perform]; try done; unfold_action; by repeat case_match.
Qed.

Lemma keeps_participants st a :
  match a with
  | ActAddParticipant | ActRemoveParticipant _ | ActSetParticipantName _ _
  | ActResetApp => True
  | _ => participants (perform st a) = participants st
  end.
Proof.
  destruct a as [op| | | | | | | | | | | | | |]; cbn [perform]; try done;
    try (unfold_action; by repeat case_match).
  destruct op; cbn [step]; unfold_action; by repeat case_match.
Qed.

Lemma receiptParsed_lookup (l : list nat) (acc : ItemAssignments) j :
  foldl (λ ia index, <[index := ∅]> ia) acc l !! j
  = if decide (j ∈ l) then Some ∅ else acc !! j.
Proof.
  revert acc. induction l as [|i l IH]; intros acc; cbn [foldl].
  - by rewrite decide_False by apply not_elem_of_nil.
  - rewrite IH. destruct (decide (j ∈ l)) as [Hin|Hnin].
    + by rewrite decide_True by (by right).
    + destruct (decide (j = i)) as [->|Hne].
      * rewrite decide_True by (by left). apply lookup_insert_eq.
      * rewrite decide_False by (intros [?|?]%elem_of_cons; done).
        by apply lookup_insert_ne.
Qed.

Lemma positiveShares_lookup (ia ia' : ItemAssignments) (g : nat → nat) :
  (∀ j, ia' !! j = ia !! g j) → positiveShares ia → positiveShares ia'.
Proof. intros Hg Hia j m Hj. rewrite Hg in Hj. by apply (Hia (g j) m). Qed.

Lemma positiveShares_reindex k ia :
  positiveShares ia → positiveShares (reindexAssignments k <$> ia).
Proof.
  intros Hia. apply map_Forall_fmap. intros i m Hi p q Hq.
  rewrite reindexAssignments_lookup in Hq. by apply (Hia i m Hi (indexBefore k p) q).
Qed.

Lemma positiveShares_perform st a :
  positiveShares (itemAssignments st) → positiveShares (itemAssignments (perform st a)).
Proof.
  intros Hia. pose proof (keeps_itemAssignments st a) as Hkeep.
  destruct a as [op| |k|k nm|k nm|k v|k v|v|k| | | |s|r|];
    try (by rewrite Hkeep); cbn [perform].
  - by apply positiveShares_step.
  - unfold removeParticipant. case_bool_decide; [|done].
    cbn [itemAssignments set_itemAssignments].
    rewrite removeParticipant_itemAssignments. by apply positiveShares_reindex.
  - unfold removeItem. destruct (receipt st) as [r|] eqn:Hr; [|done].
    case_bool_decide; [|done]. unfold recalculateTotal. cbn.
    eapply positiveShares_lookup; [|done]. apply removeItem_assignments_lookup.
  - unfold addNewItem. destruct (receipt st) as [r|]; [|done].
    cbn [itemAssignments set_itemAssignments].
    apply positiveShares_insert; [done | apply map_Forall_empty].
  - unfold receiptParsed. cbn [itemAssignments set_itemAssignments].
    intros j m Hj. rewrite receiptParsed_lookup, lookup_empty in Hj.
    case_decide; [|done]. injection Hj as <-. apply map_Forall_empty.
  - apply map_Forall_empty.
Qed.

Lemma participants_perform st a :
  participants st ≠ [] → participants (perform st a) ≠ [].
Proof.
  intros Hps. pose proof (keeps_participants st a) as Hkeep.
  destruct a as [op| |k|k nm|k nm|k v|k v|v|k| | | |s|r|];
    try (by rewrite Hkeep); cbn [perform].
  - cbn. by destruct (participants st).
  - unfold removeParticipant. case_bool_decide as Hlen; [|done].
    cbn [participants set_itemAssignments set_participants].
    unfold splice1. intros E. apply (f_equal length) in E.
    rewrite length_app, length_take, length_drop in E. cbn in E. lia.
  - cbn. intros E. apply (f_equal length) in E.
    rewrite length_insert in E. by destruct (participants st).
  - done.
Qed.

End Invariants.

(** X14. From the state the page starts in, whatever the user does (assign,
    increase, decrease, unassign, add, rename or remove participants, edit,
    add or remove items, load a receipt, compute the split, navigate, reset),
    every stored share is strictly positive and the participant list is never
    empty. *)
Theorem X14_shares_positive_and_a_participant_slot_always (acts : list Action) :
  positiveShares (itemAssignments (performAll acts pageStart))
  ∧ participants (performAll acts pageStart) ≠ [].
Proof.
  unfold performAll.
  assert (positiveShares (itemAssignments pageStart) ∧ participants pageStart ≠ [])
    as Hstart by (split; [apply map_Forall_empty | done]).
  revert Hstart. generalize pageStart.
  induction acts as [|a acts IH]; intros st [Hpos Hps]; [done|].
  cbn [foldl]. apply IH. split.
  - by apply positiveShares_perform.
  - by apply participants_perform.
Qed.

Section Consistency.

Lemma recalculateTotal_consistent st : totalConsistent (recalculateTotal st).
Proof.
  unfold recalculateTotal, totalConsistent.
  destruct (receipt st) as [r|] eqn:Hr; [|by rewrite Hr].
  cbn. apply subtotalOf_spec_total.
Qed.

Lemma keeps_receipt st a :
  match a with
  | ActAssignment _ | ActAddParticipant | ActRemoveParticipant _
  | ActSetParticipantName _ _ | ActProceedToAssignFromReview | ActCalculateSplit
  | ActGoToStep _ => receipt (perform st a) = receipt st
  | _ => True
  end.
Proof.
  destruct a as [op| | | | | | | | | | | | | |]; cbn [perform]; try done;
    try (unfold_action; by repeat case_match).
  - destruct op; cbn [step]; unfold_action; by repeat case_match.
  - unfold removeParticipant. by case_bool_decide.
Qed.

Lemma spec_total_rename its i item nm tx :
  its !! i = Some item →
  spec_total (<[i := mkItem nm (quantity item) (price item)]> its) tx = spec_total its tx.
Proof.
  intros Hi. unfold spec_total. f_equal. f_equal.
  rewrite list_fmap_insert. apply list_insert_id.
  by rewrite list_lookup_fmap, Hi.
Qed.

Lemma money_edit_ignored_or_consistent st a :
  editsMoney a = true → perform st a = st ∨ totalConsistent (perform st a).
Proof.
  destruct a; try done; intros _; cbn [perform];
    unfold updateItemQuantity, updateItemPrice, updateTax, removeItem;
    repeat case_match; auto using recalculateTotal_consistent.
Qed.

Lemma totalConsistent_perform st a :
  replacesReceipt a = false → totalConsistent st → totalConsistent (perform st a).
Proof.
  intros Ha Hst. pose proof (keeps_receipt st a) as Hkeep.
  destruct a as [op| |k|k nm|k nm|k v|k v|v|k| | | |s|r|];
    try (unfold totalConsistent; by rewrite Hkeep); try done.
  - cbn [perform]. unfold updateItemName, totalConsistent in *.
    destruct (receipt st) as [r|] eqn:Hr; [|by rewrite Hr].
    destruct (items r !! k) as [item|] eqn:Hk; [|by rewrite Hr].
    cbn. by rewrite spec_total_rename.
  - by destruct (money_edit_ignored_or_consistent st (ActUpdateItemQuantity k v) eq_refl)
      as [->|?].
  - by destruct (money_edit_ignored_or_consistent st (ActUpdateItemPrice k v) eq_refl)
      as [->|?].
  - by destruct (money_edit_ignored_or_consistent st (ActUpdateTax v) eq_refl)
      as [->|?].
  - by destruct (money_edit_ignored_or_consistent st (ActRemoveItem k) eq_refl)
      as [->|?].
  - cbn [perform]. unfold addNewItem, totalConsistent in *.
    destruct (receipt st) as [r|] eqn:Hr; [|by rewrite Hr].
    cbn. rewrite Hst, spec_total_snoc. cbn. ring.
Qed.

End Consistency.

(** X15. The stored [total] follows the edits: an edit of a quantity, a
    price or the tax, or the removal of an item, is either ignored (the state
    is unchanged) or leaves [total = sum(quantity*price) + tax]; and once that
    equation holds it survives every action of the page other than loading
    another receipt; the total then is the subtotal shown on the review step
    plus the tax. *)
Theorem X15_total_stays_consistent :
  (∀ st a, editsMoney a = true →
     perform st a = st ∨ totalConsistent (perform st a))
  ∧ (∀ acts st, Forall (λ a, replacesReceipt a = false) acts →
       totalConsistent st → totalConsistent (performAll acts st))
  ∧ (∀ st r, receipt st = Some r → totalConsistent st →
       total r = receiptSubtotal st + tax r).
Proof.
  split; [apply money_edit_ignored_or_consistent|]. split.
  2:{ intros st r Hr Hst. unfold totalConsistent, receiptSubtotal in *.
      rewrite Hr in *. by rewrite Hst, <- subtotalOf_spec_total, orZeroNum_id. }
  unfold performAll. induction acts as [|a acts IH]; intros st Hacts Hst; [done|].
  apply Forall_cons in Hacts as [Ha Hacts].
  cbn [foldl]. apply IH; [done|]. by apply totalConsistent_perform.
Qed.

Lemma X15_witness_edit_then_add :
  (perform scenarioB (ActUpdateTax (Num (qz 7))) = scenarioB
   ∨ totalConsistent (perform scenarioB (ActUpdateTax (Num (qz 7)))))
  ∧ totalConsistent
      (performAll [ActAddNewItem; ActUpdateItemPrice 1 (Num (qz 4)); ActRemoveItem 0;
                   ActAssignment (OpIncrease 0 0); ActCalculateSplit]
                  scenarioB).
Proof.
  destruct X15_total_stays_consistent as (H1 & H2 & _). split.
  - by apply H1.
  - apply H2.
    + by repeat constructor.
    + apply (bool_decide_eq_true_1 _). by vm_compute.
Defined.

(** ** Round trips *)

Section RoundTrips.

Lemma reindexAssignments_beyond n (m : gmap nat Qc) :
  map_Forall (λ (p : nat) (_ : Qc), (p < n)%nat) m → reindexAssignments n m = m.
Proof.
  intros Hm. apply map_eq. intros j. rewrite reindexAssignments_lookup.
  unfold indexBefore. case_decide; [done|].
  destruct (m !! S j) as [q|] eqn:H1; [apply Hm in H1; lia|].
  destruct (m !! j) as [q|] eqn:H2; [apply Hm in H2; lia|]. done.
Qed.

Lemma splice1_snoc {A} (l : list A) x : splice1 (length l) (l ++ [x]) = l.
Proof.
  unfold splice1. rewrite take_app_length.
  rewrite drop_ge by (rewrite length_app; cbn; lia). apply app_nil_r.
Qed.

Lemma receipt_eta r : mkReceipt (items r) (tax r) (total r) = r.
Proof. by destruct r. Qed.

End RoundTrips.

(** X16. Adding a participant and removing that new slot again is a round
    trip: when the list was not empty and no share is stored under an index
    outside it, the state is exactly what it was. *)
Theorem X16_add_then_remove_participant_restores (st : State) :
  participants st ≠ [] →
  sharesWithin (length (participants st)) (itemAssignments st) →
  removeParticipant (length (participants st)) (addParticipant st) = st.
Proof.
  intros Hne Hin. unfold removeParticipant, addParticipant.
  cbn [participants itemAssignments set_participants set_itemAssignments].
  rewrite bool_decide_eq_true_2
    by (rewrite length_app; cbn; destruct (participants st); [done | cbn; lia]).
  rewrite splice1_snoc, removeParticipant_itemAssignments.
  assert (reindexAssignments (length (participants st)) <$> itemAssignments st
          = itemAssignments st) as ->.
  { apply map_eq. intros i. rewrite lookup_fmap.
    destruct (itemAssignments st !! i) as [m|] eqn:Hi; [|done]. cbn. f_equal.
    apply reindexAssignments_beyond. by apply (Hin i m). }
  unfold set_itemAssignments, set_participants.
  cbn [currentStep receipt participants itemAssignments splitResults error
       selectedParticipantIndex].
  apply state_eta.
Qed.

Lemma X16_witness_uneven_shares :
  removeParticipant (length (participants scenarioUneven)) (addParticipant scenarioUneven)
  = scenarioUneven.
Proof.
  apply X16_add_then_remove_participant_restores.
  - done.
  - apply (bool_decide_unpack _). by vm_compute.
Defined.

(** X17. Adding an item and removing that new line again is a round trip:
    when the receipt had an item, its total was consistent and no record is
    stored under an index outside the item list, the state is exactly what it
    was. *)
Theorem X17_add_then_remove_item_restores (st : State) (r : Receipt) :
  receipt st = Some r → items r ≠ [] → totalConsistent st →
  recordsWithin (length (items r)) (itemAssignments st) →
  removeItem (length (items r)) (addNewItem st) = st.
Proof.
  intros Hr Hne Hcons Hin. unfold totalConsistent in Hcons. rewrite Hr in Hcons.
  assert (receipt (addNewItem st)
          = Some (mkReceipt (items r ++ [mkItem [] 1 0]) (tax r) (total r))) as Hr'
    by (unfold addNewItem; by rewrite Hr).
  rewrite (removeItem_unfold _ _ _ Hr')
    by (cbn; rewrite length_app; cbn; destruct (items r); [done | cbn; lia]).
  cbn [items tax]. rewrite delete_take_drop. fold (splice1 (length (items r))
    (items r ++ [mkItem [] 1 0])). rewrite splice1_snoc, <- Hcons, receipt_eta.
  assert (foldl (removeItemStep (length (items r)) (itemAssignments (addNewItem st))) ∅
                (Object_keys (itemAssignments (addNewItem st)))
          = itemAssignments st) as ->.
  { apply map_eq. intros j. rewrite removeItem_assignments_lookup.
    unfold addNewItem. rewrite Hr.
    cbn [itemAssignments set_itemAssignments items].
    rewrite length_app. cbn [length].
    replace (length (items r) + 1 - 1)%nat with (length (items r)) by lia.
    unfold indexBefore. case_decide.
    - apply lookup_insert_ne. lia.
    - rewrite lookup_insert_ne by lia.
      destruct (itemAssignments st !! S j) as [m|] eqn:H1; [apply Hin in H1; lia|].
      destruct (itemAssignments st !! j) as [m|] eqn:H2; [apply Hin in H2; lia|].
      done. }
  unfold addNewItem. rewrite Hr. unfold set_receipt, set_itemAssignments.
  cbn [currentStep receipt participants itemAssignments splitResults error
       selectedParticipantIndex].
  rewrite <- Hr. apply state_eta.
Qed.

Lemma X17_witness_scenarioB :
  removeItem (length (items receiptB)) (addNewItem scenarioB) = scenarioB.
Proof.
  apply (X17_add_then_remove_item_restores scenarioB receiptB eq_refl).
  - done.
  - apply (bool_decide_eq_true_1 _). by vm_compute.
  - apply (bool_decide_unpack _). by vm_compute.
Defined.

(** ** A freshly parsed receipt *)

(** X18. When a parsed receipt arrives, the assignment map is rebuilt from
    nothing: every item of the new receipt gets an empty record, no other
    record remains, the participants stay, and nobody owes anything in the
    preview until something is assigned. *)
Theorem X18_parsed_receipt_starts_unassigned (r : Receipt) (st : State) :
  receipt (receiptParsed r st) = Some r
  ∧ participants (receiptParsed r st) = participants st
  ∧ (∀ j, itemAssignments (receiptParsed r st) !! j
          = if decide (j < length (items r))%nat then Some ∅ else None)
  ∧ Forall (λ e, pt_itemsTotal e = 0 ∧ pt_taxPortion e = 0 ∧ pt_total e = 0)
           (participantTotals (receiptParsed r st)).
Proof.
  assert (∀ j, itemAssignments (receiptParsed r st) !! j
               = if decide (j < length (items r))%nat then Some ∅ else None) as Hlk.
  { intros j. unfold receiptParsed. cbn [itemAssignments set_itemAssignments].
    rewrite receiptParsed_lookup, lookup_empty.
    destruct (decide (j ∈ seq 0 (length (items r)))) as [Hin|Hnin];
      rewrite elem_of_seq in *; case_decide; (done || lia). }
  split; [done|]. split; [done|]. split; [done|].
  unfold participantTotals. change (receipt (receiptParsed r st)) with (Some r).
  apply Forall_forall. intros e (p & nm & -> & _)%elem_of_lookup_imap_1.
  cbn [previewEntry pt_itemsTotal pt_taxPortion pt_total].
  assert (previewItemsTotal r (itemAssignments (receiptParsed r st)) p = 0) as ->.
  { unfold previewItemsTotal. rewrite foldl_previewStep_sum, Qcplus_0_l.
    apply sum_fmap_zero. intros [i item] _. apply itemShareCost_absent.
    rewrite Hlk. by case_decide. }
  rewrite taxPortionOf_0. repeat split; ring.
Qed.

(** ** Renaming an item *)

Section Rename.

Lemma itemShareCost_rename ia p i item nm :
  itemShareCost ia p i (mkItem nm (quantity item) (price item))
  = itemShareCost ia p i item.
Proof. done. Qed.

Lemma previewItemsTotal_rename r ia p k item nm tot :
  items r !! k = Some item →
  previewItemsTotal
    (mkReceipt (<[k := mkItem nm (quantity item) (price item)]> (items r)) (tax r) tot)
    ia p
  = previewItemsTotal r ia p.
Proof.
  intros Hk. rewrite !previewItemsTotal_seq. cbn [items]. rewrite length_insert.
  apply sum_fmap_ext. intros j _.
  destruct (decide (j = k)) as [->|Hne].
  - rewrite list_lookup_insert_eq by (by eapply lookup_lt_Some). by rewrite Hk.
  - by rewrite list_lookup_insert_ne.
Qed.

Lemma subtotalOf_rename its k item nm :
  its !! k = Some item →
  subtotalOf (<[k := mkItem nm (quantity item) (price item)]> its) = subtotalOf its.
Proof.
  intros Hk. rewrite !subtotalOf_sum. f_equal.
  rewrite list_fmap_insert. apply list_insert_id.
  by rewrite list_lookup_fmap, Hk.
Qed.

Lemma taxPortionOf_receipt s t r r' :
  tax r' = tax r → taxPortionOf s t r' = taxPortionOf s t r.
Proof. intros H. unfold taxPortionOf. by rewrite H. Qed.

End Rename.

(** X19. Renaming an item changes no amount: after [updateItemName] the
    preview of every participant is what it was, and the settlement has the
    same names, totals, item totals, tax portions and split total. *)
Theorem X19_renaming_an_item_changes_no_amount
    (st : State) (r : Receipt) (k : nat) (nm : jsString) :
  receipt st = Some r → validParticipantsOf (participants st) ≠ [] →
  participantTotals (updateItemName k nm st) = participantTotals st
  ∧ ∃ sr sr',
      splitResults (calculateSplit st) = Some sr
      ∧ splitResults (calculateSplit (updateItemName k nm st)) = Some sr'
      ∧ (λ e, (pr_name e, pr_total e, pr_itemsTotal e, pr_taxPortion e))
          <$> sr_participants sr'
        = (λ e, (pr_name e, pr_total e, pr_itemsTotal e, pr_taxPortion e))
          <$> sr_participants sr
      ∧ sr_splitTotal sr' = sr_splitTotal sr
      ∧ sr_subtotal sr' = sr_subtotal sr
      ∧ sr_originalTotal sr' = sr_originalTotal sr.
Proof.
  intros Hr Hv.
  destruct (items r !! k) as [item|] eqn:Hk.
  2:{ assert (updateItemName k nm st = st) as ->
        by (unfold updateItemName; by rewrite Hr, Hk).
      split; [done|]. eexists _, _.
      split; [by apply calculateSplit_results|].
      split; [by apply calculateSplit_results|]. done. }
  set (r' := mkReceipt (<[k := mkItem nm (quantity item) (price item)]> (items r))
                       (tax r) (total r)).
  assert (updateItemName k nm st = set_receipt r' st) as ->
    by (unfold updateItemName; by rewrite Hr, Hk).
  assert (∀ p, previewItemsTotal r' (itemAssignments st) p
               = previewItemsTotal r (itemAssignments st) p) as Hit
    by (intros p; by apply previewItemsTotal_rename).
  assert (subtotalOf (items r') = subtotalOf (items r)) as Hsub
    by (by apply subtotalOf_rename).
  assert (∀ p nm', previewEntry r' (itemAssignments st) p nm'
                   = previewEntry r (itemAssignments st) p nm') as Hprev.
  { intros p nm'. unfold previewEntry. rewrite Hit, Hsub.
    by rewrite (taxPortionOf_receipt _ _ r r'). }
  assert (∀ p nm',
            (pr_name (splitEntry r' (itemAssignments st) p nm'),
             pr_total (splitEntry r' (itemAssignments st) p nm'),
             pr_itemsTotal (splitEntry r' (itemAssignments st) p nm'),
             pr_taxPortion (splitEntry r' (itemAssignments st) p nm'))
            = (pr_name (splitEntry r (itemAssignments st) p nm'),
               pr_total (splitEntry r (itemAssignments st) p nm'),
               pr_itemsTotal (splitEntry r (itemAssignments st) p nm'),
               pr_taxPortion (splitEntry r (itemAssignments st) p nm'))) as Hsplit.
  { intros p nm'.
    destruct (splitEntry_rounds r' (itemAssignments st) p nm') as (-> & -> & -> & ->).
    destruct (splitEntry_rounds r (itemAssignments st) p nm') as (-> & -> & -> & ->).
    by rewrite Hit, Hsub, (taxPortionOf_receipt _ _ r r'). }
  split.
  - unfold participantTotals. cbn [receipt participants itemAssignments set_receipt].
    rewrite Hr. by apply imap_ext.
  - eexists _, _. split; [by apply calculateSplit_results|].
    split; [by apply (calculateSplit_results (set_receipt r' st) r')|].
    cbn [sr_participants sr_splitTotal sr_subtotal sr_originalTotal
         participants itemAssignments set_receipt].
    assert ((λ e, (pr_name e, pr_total e, pr_itemsTotal e, pr_taxPortion e))
              <$> imap (splitEntry r' (itemAssignments st))
                       (validParticipantsOf (participants st))
            = (λ e, (pr_name e, pr_total e, pr_itemsTotal e, pr_taxPortion e))
              <$> imap (splitEntry r (itemAssignments st))
                       (validParticipantsOf (participants st))) as Hlist.
    { rewrite !fmap_imap. apply imap_ext. intros p nm' _. apply Hsplit. }
    split; [done|]. split; [|done].
    rewrite !settlement_totals. f_equal. f_equal. apply list_fmap_ext.
    intros _ p _. by rewrite Hit, Hsub, (taxPortionOf_receipt _ _ r r').
Qed.

Lemma X19_witness_scenarioB :
  participantTotals (updateItemName 0 Bob scenarioB) = participantTotals scenarioB.
Proof.
  destruct (X19_renaming_an_item_changes_no_amount scenarioB receiptB 0 Bob eq_refl)
    as [H _]; [by vm_compute | exact H].
Defined.

(** ** The running totals of the assign step *)

(** X20. The running total shown beside the [j]-th named participant on the
    assign step is the unrounded amount the settlement charges the [j]-th
    named participant: the settlement's [total] is its rounding to cents,
    blank slots in the list or not. *)
Theorem X20_shown_total_is_what_the_settlement_rounds
    (st : State) (r : Receipt) (j : nat) (nm : jsString) :
  receipt st = Some r →
  validParticipantsOf (participants st) !! j = Some nm →
  ∃ sr e, splitResults (calculateSplit st) = Some sr
    ∧ sr_participants sr !! j = Some e
    ∧ pr_name e = trim nm
    ∧ pr_total e = round2 (shownRunningTotal st j).
Proof.
  intros Hr Hj.
  assert (validParticipantsOf (participants st) ≠ []) as Hv
    by (intros E; by rewrite E in Hj).
  assert (j < length (participants st))%nat as Hlen.
  { apply lookup_lt_Some in Hj.
    pose proof (length_filter (λ p, truthyString (trim p) = true) (participants st)).
    unfold validParticipantsOf in Hj. lia. }
  destruct (lookup_lt_is_Some_2 _ _ Hlen) as [nm0 Hnm0].
  eexists _, _. split; [by apply calculateSplit_results|].
  cbn [sr_participants]. rewrite list_lookup_imap, Hj. split; [done|].
  destruct (splitEntry_rounds r (itemAssignments st) j nm) as (-> & _ & _ & ->).
  split; [done|]. unfold shownRunningTotal, participantTotals.
  by rewrite Hr, list_lookup_imap, Hnm0, orZeroNum_id.
Qed.

Lemma X20_witness_blank_first_slot :
  ∃ sr e,
    splitResults (calculateSplit (blankThenBob {[ 0%nat := {[ 0%nat := 1 ]} ]})) = Some sr
    ∧ sr_participants sr !! 0%nat = Some e
    ∧ pr_name e = trim Bob
    ∧ pr_total e
      = round2 (shownRunningTotal (blankThenBob {[ 0%nat := {[ 0%nat := 1 ]} ]}) 0).
Proof.
  apply (X20_shown_total_is_what_the_settlement_rounds
           (blankThenBob {[ 0%nat := {[ 0%nat := 1 ]} ]}) receiptTen 0 Bob eq_refl).
  reflexivity.
Defined.
